(** * asyncmap: a typed wrapper around Go's [sync.Map]

    Shallow embedding of [asyncmap/asyncmap.go].  The backing [sync.Map] maps
    interface values to interface values and compares keys with [==], so a key
    that is not [==] to itself (a NaN) is stored but never found again.  The
    generic parameters [K comparable] and [V any] become a type class that
    carries the conversion to [any] and the two-valued type assertion
    [x.(T)].  Methods with a pointer receiver return the receiver they leave
    behind. *)

From stdpp Require Import base option list gmap strings.
From Stdlib Require Import ZArith Lia.

Open Scope Z_scope.

(** ** Interface values *)

(** A pointer is either [nil] or an address. *)
Inductive ptr : Type :=
  | NilPtr
  | Addr (a : N).

(** A [float64] up to [==]: NaN, which is not [==] to itself, or the value of
    signed rank [i] among the others ([FVal 0] is zero, the two zeros being
    [==]; positive ranks are the values above zero in increasing order,
    negative ranks those below). *)
Inductive float64 : Type :=
  | FNaN
  | FVal (i : Z).

(** A concrete (non-interface) value together with its dynamic type. *)
Inductive dyn : Type :=
  | DInt (z : Z)
  | DString (s : string)
  | DPtr (p : ptr)
  | DFloat (f : float64).

(** A value of static type [any]: [None] is the nil interface, [Some d] an
    interface holding the concrete value [d].  An interface holding a nil
    pointer is [Some (DPtr NilPtr)], which is not the nil interface. *)
Definition any : Type := option dyn.

#[global] Instance ptr_eq_dec : EqDecision ptr.
Proof. solve_decision. Defined.

#[global] Instance float64_eq_dec : EqDecision float64.
Proof. solve_decision. Defined.

#[global] Instance dyn_eq_dec : EqDecision dyn.
Proof. solve_decision. Defined.

Definition ptr_code (p : ptr) : option N :=
  match p with NilPtr => None | Addr a => Some a end.

Definition ptr_decode (o : option N) : ptr :=
  match o with None => NilPtr | Some a => Addr a end.

#[global] Instance ptr_countable : Countable ptr.
Proof. apply (inj_countable' ptr_code ptr_decode). by intros []. Defined.

Definition float64_code (f : float64) : option Z :=
  match f with FNaN => None | FVal i => Some i end.

Definition float64_decode (o : option Z) : float64 :=
  match o with None => FNaN | Some i => FVal i end.

#[global] Instance float64_countable : Countable float64.
Proof. apply (inj_countable' float64_code float64_decode). by intros []. Defined.

Definition dyn_code (d : dyn) : Z + (string + (ptr + float64)) :=
  match d with
  | DInt z => inl z
  | DString s => inr (inl s)
  | DPtr p => inr (inr (inl p))
  | DFloat f => inr (inr (inr f))
  end.

Definition dyn_decode (c : Z + (string + (ptr + float64))) : dyn :=
  match c with
  | inl z => DInt z
  | inr (inl s) => DString s
  | inr (inr (inl p)) => DPtr p
  | inr (inr (inr f)) => DFloat f
  end.

#[global] Instance dyn_countable : Countable dyn.
Proof. apply (inj_countable' dyn_code dyn_decode). by intros []. Defined.

(** ** Keys of a map from [any]

    An interface value that is [==] to itself; on these, [==] is identity.
    Every interface value but the one holding NaN is of this kind. *)
Inductive key : Type :=
  | KNil
  | KInt (z : Z)
  | KString (s : string)
  | KPtr (p : ptr)
  | KFloat (i : Z).

#[global] Instance key_eq_dec : EqDecision key.
Proof. solve_decision. Defined.

Definition key_code (c : key) : option (Z + (string + (ptr + Z))) :=
  match c with
  | KNil => None
  | KInt z => Some (inl z)
  | KString s => Some (inr (inl s))
  | KPtr p => Some (inr (inr (inl p)))
  | KFloat i => Some (inr (inr (inr i)))
  end.

Definition key_decode (o : option (Z + (string + (ptr + Z)))) : key :=
  match o with
  | None => KNil
  | Some (inl z) => KInt z
  | Some (inr (inl s)) => KString s
  | Some (inr (inr (inl p))) => KPtr p
  | Some (inr (inr (inr i))) => KFloat i
  end.

#[global] Instance key_countable : Countable key.
Proof. apply (inj_countable' key_code key_decode). by intros []. Defined.

(** The interface value holding NaN. *)
Definition nan : any := Some (DFloat FNaN).

(** The key an interface value is looked up by; none for NaN. *)
Definition keyOf (x : any) : option key :=
  match x with
  | None => Some KNil
  | Some (DInt z) => Some (KInt z)
  | Some (DString s) => Some (KString s)
  | Some (DPtr p) => Some (KPtr p)
  | Some (DFloat (FVal i)) => Some (KFloat i)
  | Some (DFloat FNaN) => None
  end.

Definition anyOf (c : key) : any :=
  match c with
  | KNil => None
  | KInt z => Some (DInt z)
  | KString s => Some (DString s)
  | KPtr p => Some (DPtr p)
  | KFloat i => Some (DFloat (FVal i))
  end.

(** [x == x] at type [any]. *)
Definition selfEq (x : any) : bool :=
  match keyOf x with Some _ => true | None => false end.

(** [x == y] at type [any]. *)
Definition eqAny (x y : any) : bool :=
  selfEq x && bool_decide (x = y).

(** ** Go types usable as the parameters [K] and [V]

    [box] is the implicit conversion to [any] performed when a typed value is
    passed to [sync.Map]; [assert] is [x.(T)] in its two-valued form, [None]
    standing for [ok = false] (the typed result is then [zero]); [isNil] is the
    comparison [v == nil] at type [T], [false] for types that have no nil.
    The laws are those of the language: the nil interface satisfies no
    assertion, a value converted to a non-nil interface is asserted back, an
    asserted value converts to the interface it came from, and only a nil
    value of an interface type converts to the nil interface. *)
Class GoType (T : Type) : Type := {
  zero : T;
  box : T -> any;
  assert : any -> option T;
  isNil : T -> bool;
  assert_nil : assert None = None;
  assert_box : forall v : T, box v <> None -> assert (box v) = Some v;
  box_assert : forall (x : any) (v : T), assert x = Some v -> box v = x;
  box_nil_zero : forall v : T, box v = None -> v = zero;
  box_nil_isNil : forall v : T, box v = None -> isNil v = true
}.

(** The typed result of [x.(T)]: the asserted value, or the zero value. *)
Definition typed {T : Type} `{GoType T} (x : any) : T :=
  match assert x with Some v => v | None => zero end.

(** The [ok] result of [x.(T)]. *)
Definition typedOk {T : Type} `{GoType T} (x : any) : bool :=
  match assert (T:=T) x with Some _ => true | None => false end.

(** [value != nil] at type [any]. *)
Definition notNil (x : any) : bool :=
  match x with Some _ => true | None => false end.

#[global, refine] Instance int_GoType : GoType Z := {|
  zero := 0;
  box z := Some (DInt z);
  assert x := match x with Some (DInt z) => Some z | _ => None end;
  isNil _ := false
|}.
Proof. all: try done. intros [[]|] v; naive_solver. Defined.

#[global, refine] Instance string_GoType : GoType string := {|
  zero := EmptyString;
  box s := Some (DString s);
  assert x := match x with Some (DString s) => Some s | _ => None end;
  isNil _ := false
|}.
Proof. all: try done. intros [[]|] v; naive_solver. Defined.

(** A pointer type [*T]: converting a nil pointer to [any] gives a non-nil
    interface. *)
#[global, refine] Instance ptr_GoType : GoType ptr := {|
  zero := NilPtr;
  box p := Some (DPtr p);
  assert x := match x with Some (DPtr p) => Some p | _ => None end;
  isNil p := match p with NilPtr => true | Addr _ => false end
|}.
Proof. all: try done. intros [[]|] v; naive_solver. Defined.

(** [float64]: the assertion succeeds on NaN as on any other value. *)
#[global, refine] Instance float64_GoType : GoType float64 := {|
  zero := FVal 0;
  box f := Some (DFloat f);
  assert x := match x with Some (DFloat f) => Some f | _ => None end;
  isNil _ := false
|}.
Proof. all: try done. intros [[]|] v; naive_solver. Defined.

(** The interface type [any] itself: the conversion is the identity, and the
    assertion fails exactly on the nil interface. *)
#[global, refine] Instance any_GoType : GoType any := {|
  zero := None;
  box x := x;
  assert x := match x with Some _ => Some x | None => None end;
  isNil x := match x with Some _ => false | None => true end
|}.
Proof.
  - done.
  - by intros [d|].
  - intros [d|] v; naive_solver.
  - done.
  - by intros [d|].
Defined.

(** ** The [sync.Map] primitive

    Go's [sync.Map], as its documentation gives it.  Keys are compared with
    [==]: the entries under keys that are [==] to themselves form a finite
    map, at most one entry per key; an entry stored under NaN matches no
    later key, so each such [Store] adds an entry that [Load] and [Delete]
    never reach and only [Range] visits.  [stray] holds the values of these
    entries, in the order stored. *)
Module syncmap.

Record t : Type := mk {
  live : gmap key any;
  stray : list any
}.

(** The zero value [sync.Map{}]. *)
#[global] Instance t_empty : Empty t := {| live := ∅; stray := [] |}.

(** The entry found at a key. *)
#[global] Instance t_lookup : Lookup any any t :=
  fun key s =>
    match keyOf key with
    | Some c => live s !! c
    | None => None
    end.

Definition Load (s : t) (key : any) : any * bool :=
  match s !! key with
  | Some v => (v, true)
  | None => (None, false)
  end.

Definition Store (s : t) (key value : any) : t :=
  match keyOf key with
  | Some c => {| live := <[c := value]> (live s); stray := stray s |}
  | None => {| live := live s; stray := stray s ++ [value] |}
  end.

Definition Delete (s : t) (key : any) : t :=
  match keyOf key with
  | Some c => {| live := delete c (live s); stray := stray s |}
  | None => s
  end.

#[global] Instance t_insert : Insert any any t :=
  fun key value s => Store s key value.

#[global] Instance t_delete : base.Delete any t :=
  fun key s => Delete s key.

Definition LoadOrStore (s : t) (key value : any) : t * (any * bool) :=
  match s !! key with
  | Some v => (s, (v, true))
  | None => (Store s key value, (value, false))
  end.

Definition Swap (s : t) (key value : any) : t * (any * bool) :=
  (Store s key value, Load s key).

Definition LoadAndDelete (s : t) (key : any) : t * (any * bool) :=
  (Delete s key, Load s key).

(** The entries in the order [Range] visits them: the order is unspecified
    in Go; here the entries under self-equal keys come in the enumeration
    order of the finite map, then those under NaN in the order stored. *)
Definition entries (s : t) : list (any * any) :=
  (prod_map anyOf id <$> map_to_list (live s))
  ++ ((fun v : any => (nan, v)) <$> stray s).

(** [Range] calls [f] on each entry until [f] returns [false].  [f] acts on
    a state of the caller's choice; the entries are those of the map when the
    traversal starts. *)
Fixpoint visit {St : Type} (f : any -> any -> St -> St * bool)
    (es : list (any * any)) (st : St) : St :=
  match es with
  | [] => st
  | (k, v) :: rest =>
      let '(st', continue) := f k v st in
      if continue then visit f rest st' else st'
  end.

Definition Range {St : Type} (s : t)
    (f : any -> any -> St -> St * bool) (st : St) : St :=
  visit f (entries s) st.

End syncmap.

(** ** The container *)

(** [SyncMap[K, V]]: two pointers, [nil] ([None]) in a zero-value struct.  A
    mutex is [true] while held. *)
Record SyncMap : Type := mkSyncMap {
  syncMap : option syncmap.t;
  localLock : option bool
}.

(** [var m SyncMap[K, V]] / [SyncMap[K, V]{}]. *)
Definition zeroSyncMap : SyncMap :=
  {| syncMap := None; localLock := None |}.

(** How a call that takes a mutex ends in a single thread: it returns, it
    waits forever on a mutex that is held, or it dereferences a nil mutex. *)
Inductive outcome (A : Type) : Type :=
  | Returns (a : A)
  | Blocks
  | NilPanic.
Arguments Returns {A} a.
Arguments Blocks {A}.
Arguments NilPanic {A}.

(** What a visitor call does besides changing the caller's state: it returns
    its boolean, or it panics with a value.  The value is never the nil
    interface: [recover] returns a non-nil value for every panic (a
    [panic(nil)] is turned into a runtime error value). *)
Inductive call : Type :=
  | Ret (b : bool)
  | Panics (r : dyn).

(** Lines written through [log.Printf] by [Range]. *)
Inductive logline : Type :=
  | RangePanic (r : dyn)
  | RangeAssertFailed (key : any).

(** The body of [lazyInit], with the number of times its allocating branch
    runs (each run allocates one [sync.Map] and one [sync.Mutex]).  The
    package-level [globalLock] is taken and released inside the call, so a
    single thread sees only the two allocations. *)
Definition lazyInitStep (m : SyncMap) : SyncMap * nat :=
  match syncMap m with
  | None => ({| syncMap := Some ∅; localLock := Some false |}, 1%nat)
  | Some _ => (m, 0%nat)
  end.

(** [lazyInit] *)
Definition lazyInit (m : SyncMap) : SyncMap := (lazyInitStep m).1.

(** How many times [lazyInit] runs its allocating branch on [m]. *)
Definition lazyInitAllocs (m : SyncMap) : nat := (lazyInitStep m).2.

(** [*m.syncMap]; every use follows [lazyInit], where the pointer is set. *)
Definition backing (m : SyncMap) : syncmap.t :=
  match syncMap m with
  | Some s => s
  | None => ∅
  end.

(** Writing through the pointer [m.syncMap]. *)
Definition setBacking (m : SyncMap) (s : syncmap.t) : SyncMap :=
  {| syncMap := Some s; localLock := localLock m |}.

Definition setLock (m : SyncMap) (held : bool) : SyncMap :=
  {| syncMap := syncMap m; localLock := Some held |}.

(** [m.localLock.Lock()] followed by [body] and the deferred
    [m.localLock.Unlock()]. *)
Definition withLocalLock {A : Type} (m : SyncMap)
    (body : SyncMap -> SyncMap * A) : outcome (SyncMap * A) :=
  match localLock m with
  | None => NilPanic
  | Some true => Blocks
  | Some false =>
      let '(m', a) := body (setLock m true) in
      Returns (setLock m' false, a)
  end.

(** [Clear] *)
Definition Clear (m : SyncMap) : outcome SyncMap :=
  let m := lazyInit m in
  match withLocalLock m (fun m =>
          (setBacking m
             (syncmap.Range (backing m)
                (fun key _ s => (syncmap.Delete s key, true)) (backing m)),
           tt)) with
  | Returns (m', _) => Returns m'
  | Blocks => Blocks
  | NilPanic => NilPanic
  end.

Section Typed.
Context {K V : Type} `{GoType K} `{GoType V}.

(** [Load] *)
Definition Load (m : SyncMap) (key : K) : SyncMap * (V * bool) :=
  let m := lazyInit m in
  let '(value, ok) := syncmap.Load (backing m) (box key) in
  (m, (typed value, typedOk (T:=V) value && ok && notNil value)).

(** [Get] *)
Definition Get (m : SyncMap) (key : K) : SyncMap * V :=
  let m := lazyInit m in
  let '(value, ok) := syncmap.Load (backing m) (box key) in
  if negb ok then (m, zero)
  else if negb (notNil value) then (m, zero)
  else if negb (typedOk (T:=V) value) then (m, zero)
  else (m, typed value).

(** [GetOrDefault]; the variadic [defaultValue ...V] is a list. *)
Definition GetOrDefault (m : SyncMap) (key : K) (defaultValue : list V)
  : SyncMap * V :=
  let m := lazyInit m in
  let df := match defaultValue with d :: _ => d | [] => zero end in
  let '(value, ok) := syncmap.Load (backing m) (box key) in
  if negb ok then (m, df)
  else if negb (notNil value) then (m, df)
  else if negb (typedOk (T:=V) value) then (m, df)
  else (m, typed value).

(** [LoadAndDelete] *)
Definition LoadAndDelete (m : SyncMap) (key : K) : SyncMap * (V * bool) :=
  let m := lazyInit m in
  let '(s, (value, ok)) := syncmap.LoadAndDelete (backing m) (box key) in
  (setBacking m s, (typed value, typedOk (T:=V) value && ok && notNil value)).

(** [Store] *)
Definition Store (m : SyncMap) (key : K) (value : V) : SyncMap :=
  let m := lazyInit m in
  setBacking m (syncmap.Store (backing m) (box key) (box value)).

(** [LoadOrStore] *)
Definition LoadOrStore (m : SyncMap) (key : K) (value : V)
  : SyncMap * (V * bool) :=
  let m := lazyInit m in
  let '(s, (v, ok)) := syncmap.LoadOrStore (backing m) (box key) (box value) in
  (setBacking m s, (typed v, ok && typedOk (T:=V) v)).

(** [Swap] *)
Definition Swap (m : SyncMap) (key : K) (value : V) : SyncMap * (V * bool) :=
  let m := lazyInit m in
  let '(s, (v, ok)) := syncmap.Swap (backing m) (box key) (box value) in
  (setBacking m s, (typed v, ok && typedOk (T:=V) v)).

(** [Delete] *)
Definition Delete (m : SyncMap) (key : K) : SyncMap :=
  let m := lazyInit m in
  setBacking m (syncmap.Delete (backing m) (box key)).

(** The closure [wrappedFn] of [Range].  [rtrn] starts as [true] and is
    assigned only when [fn] returns; a panic of [fn] is recovered and logged,
    a failed assertion is logged.  The visitor [fn] acts on a state [S] of
    its caller. *)
Definition wrappedFn {S : Type} (fn : K -> V -> S -> S * call)
    (key value : any) (st : S * list logline) : (S * list logline) * bool :=
  let '(s, lg) := st in
  match assert (T:=K) key, assert (T:=V) value with
  | Some typedKey, Some typedValue =>
      match fn typedKey typedValue s with
      | (s', Ret b) => ((s', lg), b)
      | (s', Panics r) => ((s', lg ++ [RangePanic r]), true)
      end
  | _, _ => ((s, lg ++ [RangeAssertFailed key]), true)
  end.

(** [Range] *)
Definition Range {S : Type} (m : SyncMap) (fn : K -> V -> S -> S * call)
    (s : S) (lg : list logline) : outcome (SyncMap * (S * list logline)) :=
  let m := lazyInit m in
  withLocalLock m (fun m =>
    (m, syncmap.Range (backing m) (wrappedFn fn) (s, lg))).

(** [NewSyncMap]; each ordinary map is given by its entries. *)
Definition NewSyncMap (maps : list (list (K * V))) : SyncMap :=
  let sMap := {| syncMap := Some ∅; localLock := Some false |} in
  foldl (fun sMap mp => foldl (fun sMap kv => Store sMap kv.1 kv.2) sMap mp)
        sMap maps.

(** [Merge] *)
Definition Merge (a b : SyncMap) (lg : list logline)
  : outcome (SyncMap * list logline) :=
  let out := zeroSyncMap in
  match Range a (fun k v out => (Store out k v, Ret true)) out lg with
  | Returns (_, (out, lg)) =>
      match Range b (fun k v out => (Store out k v, Ret true)) out lg with
      | Returns (_, (out, lg)) => Returns (out, lg)
      | Blocks => Blocks
      | NilPanic => NilPanic
      end
  | Blocks => Blocks
  | NilPanic => NilPanic
  end.

End Typed.

(** The visitor that behaves as [fn] but returns [true] where [fn] panics. *)
Definition continueOnPanic {K V S : Type} (fn : K -> V -> S -> S * call)
    (key : K) (value : V) (s : S) : S * call :=
  match fn key value s with
  | (s', Panics _) => (s', Ret true)
  | r => r
  end.

(** The visitor that behaves as [fn] and keeps, beside the state of [fn], the
    list of its calls so far: the key and the value it was called on, and how
    the call ended. *)
Definition recordCalls {K V S : Type} (fn : K -> V -> S -> S * call)
    (key : K) (value : V) (st : S * list (K * V * call))
  : (S * list (K * V * call)) * call :=
  let '(s, calls) := st in
  let '(s', c) := fn key value s in
  ((s', calls ++ [(key, value, c)]), c).

(** The log line of a recorded call, if it panicked. *)
Definition panicLine {K V : Type} (c : K * V * call) : option logline :=
  match c.2 with
  | Panics r => Some (RangePanic r)
  | Ret _ => None
  end.

(** A visitor that counts its invocations and keeps going. *)
Definition countCalls {K V : Type} (_ : K) (_ : V) (n : nat) : nat * call :=
  (S n, Ret true).

(** A visitor that counts its invocations and stops the traversal. *)
Definition stopAtOnce {K V : Type} (_ : K) (_ : V) (n : nat) : nat * call :=
  (S n, Ret false).

(** Log lines other than recovered panics. *)
Definition isAssertLine (l : logline) : bool :=
  match l with
  | RangePanic _ => false
  | RangeAssertFailed _ => true
  end.

(** The lock of [m] is free once [m] is initialised. *)
Definition lockFree (m : SyncMap) : Prop :=
  localLock (lazyInit m) = Some false.

(** What [Load] reports for the interface value the backing store holds at a
    key, if any. *)
Definition found {V : Type} `{GoType V} (o : option any) : V * bool :=
  match o with
  | Some x => match assert x with Some v => (v, true) | None => (zero, false) end
  | None => (zero, false)
  end.

(** A run of [Store] calls. *)
Definition storeAll {K V : Type} `{GoType K} `{GoType V}
    (m : SyncMap) (ops : list (K * V)) : SyncMap :=
  foldl (fun m kv => Store m kv.1 kv.2) m ops.

(** The containers of the merge example: [{1:"x", 2:"y"}], [{2:"z", 3:"w"}]
    and [{1:"x", 2:"z", 3:"w"}], with [int] keys and [string] values. *)
Definition exampleA : SyncMap :=
  NewSyncMap (K:=Z) (V:=string) [[(1, "x"); (2, "y")]].

Definition exampleB : SyncMap :=
  NewSyncMap (K:=Z) (V:=string) [[(2, "z"); (3, "w")]].

Definition exampleMerged : SyncMap :=
  NewSyncMap (K:=Z) (V:=string) [[(1, "x"); (2, "z"); (3, "w")]].

(** A [SyncMap[string, any]] whose key ["k"] holds the nil interface. *)
Definition holdsNil : SyncMap :=
  Store (K:=string) (V:=any) zeroSyncMap "k" None.

(** A [SyncMap[any, string]] with an entry at the nil interface key. *)
Definition nilKeyed : SyncMap :=
  Store (K:=any) (V:=string) zeroSyncMap None "x".

(** A [SyncMap[string, *T]] whose key ["k"] holds a nil pointer. *)
Definition holdsNilPtr : SyncMap :=
  Store (K:=string) (V:=ptr) zeroSyncMap "k" NilPtr.

(** A [SyncMap[float64, string]] after [Store(NaN, "v")] on the zero
    value. *)
Definition nanKeyed : SyncMap :=
  Store (K:=float64) (V:=string) zeroSyncMap FNaN "v".

(** A visitor that counts its invocations and panics in each of them. *)
Definition alwaysPanics (_ : Z) (_ : string) (n : nat) : nat * call :=
  (S n, Panics (DString "boom")).

(** ** Operations built on [Range] *)

(** An ordinary map [map[K]V].  Its keys are compared with [==] as well: the
    entries under self-equal keys form a finite map, and each assignment
    under a key that is not [==] to itself adds an entry; [nans] holds these,
    in the order assigned. *)
Record gomap (K V : Type) `{Countable K} : Type := mkGomap {
  cells : gmap K V;
  nans : list (K * V)
}.
Arguments mkGomap {K V _ _} cells nans.
Arguments cells {K V _ _} g.
Arguments nans {K V _ _} g.

(** [make(map[K]V)] *)
Definition goMake {K V : Type} `{Countable K} : gomap K V :=
  {| cells := ∅; nans := [] |}.

(** [mp[key] = value] *)
Definition goAssign {K V : Type} `{GoType K} `{Countable K}
    (mp : gomap K V) (key : K) (value : V) : gomap K V :=
  if selfEq (box key)
  then {| cells := <[key := value]> (cells mp); nans := nans mp |}
  else {| cells := cells mp; nans := nans mp ++ [(key, value)] |}.

(** The ordinary map with the given entries, assigned in order. *)
Definition goMapOf {K V : Type} `{GoType K} `{Countable K}
    (l : list (K * V)) : gomap K V :=
  foldl (fun mp kv => goAssign mp kv.1 kv.2) goMake l.

(** [ToMap] *)
Definition ToMap {K V : Type} `{GoType K} `{GoType V} `{Countable K}
    (m : SyncMap) (lg : list logline)
  : outcome (SyncMap * (gomap K V * list logline)) :=
  let mp : gomap K V := goMake in
  Range m (fun key value mp => (goAssign mp key value, Ret true)) mp lg.

(** [SyncTransform].  [m1] is passed by value, so only [m2] and the log come
    back.  [fn] returns its pair or panics with a value; a panic happens
    inside the visitor of [Range], before the [Store]. *)
Definition SyncTransform {K1 V1 K2 V2 : Type}
    `{GoType K1} `{GoType V1} `{GoType K2} `{GoType V2}
    (m1 : SyncMap) (fn : K1 -> V1 -> (K2 * V2) + dyn) (lg : list logline)
  : outcome (SyncMap * list logline) :=
  let m2 := zeroSyncMap in
  match Range (K:=K1) (V:=V1) m1
          (fun key value m2 =>
             match fn key value with
             | inl (k2, v2) => (Store m2 k2 v2, Ret true)
             | inr r => (m2, Panics r)
             end) m2 lg with
  | Returns (_, (m2, lg)) => Returns (m2, lg)
  | Blocks => Blocks
  | NilPanic => NilPanic
  end.

(** [Copy]: the receiver is dereferenced and passed by value. *)
Definition Copy {K V : Type} `{GoType K} `{GoType V}
    (m : SyncMap) (lg : list logline) : outcome (SyncMap * list logline) :=
  SyncTransform (K1:=K) (V1:=V) (K2:=K) (V2:=V) m (fun k v => inl (k, v)) lg.

(** An entry of the backing store whose key and value pass the assertions of
    [Range]. *)
Definition wellTyped (K V : Type) `{GoType K} `{GoType V} (e : any * any)
  : bool :=
  typedOk (T:=K) e.1 && typedOk (T:=V) e.2.

(** The typed key and value [Range] hands to its visitor for an entry, if
    both assertions succeed. *)
Definition typedEntry {K V : Type} `{GoType K} `{GoType V} (e : any * any)
  : option (K * V) :=
  match assert (T:=K) e.1, assert (T:=V) e.2 with
  | Some k, Some v => Some (k, v)
  | _, _ => None
  end.

(** What [SyncTransform] stores for an entry of the backing store, if
    anything. *)
Definition image {K1 V1 K2 V2 : Type}
    `{GoType K1} `{GoType V1} `{GoType K2} `{GoType V2}
    (fn : K1 -> V1 -> (K2 * V2) + dyn) (e : any * any) : option (any * any) :=
  match assert (T:=K1) e.1, assert (T:=V1) e.2 with
  | Some k, Some v =>
      match fn k v with
      | inl (k2, v2) => Some (box k2, box v2)
      | inr _ => None
      end
  | _, _ => None
  end.

(** ** Keys and the primitive *)

Lemma keyOf_anyOf (c : key) : keyOf (anyOf c) = Some c.
Proof. by destruct c. Qed.

Lemma anyOf_keyOf (x : any) (c : key) : keyOf x = Some c -> anyOf c = x.
Proof. destruct x as [[| | |[]]|]; intros [= <-]; done. Qed.

Lemma keyOf_None (x : any) : keyOf x = None -> x = nan.
Proof. by destruct x as [[| | |[]]|]. Qed.

Lemma selfEq_false (x : any) : selfEq x = false -> x = nan.
Proof.
  unfold selfEq. destruct (keyOf x) eqn:E; [done|]. intros _.
  by apply keyOf_None.
Qed.

Lemma selfEq_anyOf (c : key) : selfEq (anyOf c) = true.
Proof. unfold selfEq. by rewrite keyOf_anyOf. Qed.

Lemma anyOf_inj (c1 c2 : key) : anyOf c1 = anyOf c2 -> c1 = c2.
Proof.
  intros E. assert (Some c1 = Some c2) as [=]; [|done].
  by rewrite <- !keyOf_anyOf, E.
Qed.

Lemma eqAny_refl (x : any) : eqAny x x = selfEq x.
Proof. unfold eqAny. by rewrite (bool_decide_eq_true_2 (x = x)), andb_true_r. Qed.

Lemma eqAny_ne (x y : any) : x <> y -> eqAny x y = false.
Proof.
  intros Hne. unfold eqAny.
  by rewrite (bool_decide_eq_false_2 (x = y)), andb_false_r.
Qed.

Lemma eqAny_true (x y : any) : eqAny x y = true -> x = y /\ selfEq x = true.
Proof.
  unfold eqAny. intros [Hs Hd]%andb_true_iff.
  split; [by apply bool_decide_eq_true in Hd|done].
Qed.

Lemma lookup_notSelfEq (s : syncmap.t) (x : any) :
  selfEq x = false -> s !! x = None.
Proof.
  unfold selfEq, lookup, syncmap.t_lookup. by destruct (keyOf x).
Qed.

Lemma lookup_t_empty (x : any) : (∅ : syncmap.t) !! x = None.
Proof.
  unfold lookup, syncmap.t_lookup. destruct (keyOf x); [|done].
  apply lookup_empty.
Qed.

Lemma lookup_Store (s : syncmap.t) (x v y : any) :
  syncmap.Store s x v !! y = if eqAny x y then Some v else s !! y.
Proof.
  unfold syncmap.Store, lookup, syncmap.t_lookup, eqAny, selfEq.
  destruct (keyOf x) as [c|] eqn:Ex; cbn [andb syncmap.live]; [|done].
  case_bool_decide as E.
  - subst y. rewrite Ex. apply lookup_insert_eq.
  - destruct (keyOf y) as [c'|] eqn:Ey; [|done].
    apply lookup_insert_ne. intros ->. apply E.
    by rewrite <- (anyOf_keyOf _ _ Ex), <- (anyOf_keyOf _ _ Ey).
Qed.

Lemma lookup_Delete (s : syncmap.t) (x y : any) :
  syncmap.Delete s x !! y = if eqAny x y then None else s !! y.
Proof.
  unfold syncmap.Delete, lookup, syncmap.t_lookup, eqAny, selfEq.
  destruct (keyOf x) as [c|] eqn:Ex; cbn [andb syncmap.live]; [|done].
  case_bool_decide as E.
  - subst y. rewrite Ex. apply lookup_delete_eq.
  - destruct (keyOf y) as [c'|] eqn:Ey; [|done].
    apply lookup_delete_ne. intros ->. apply E.
    by rewrite <- (anyOf_keyOf _ _ Ex), <- (anyOf_keyOf _ _ Ey).
Qed.

Lemma Delete_absent (s : syncmap.t) (x : any) :
  s !! x = None -> syncmap.Delete s x = s.
Proof.
  unfold syncmap.Delete, lookup, syncmap.t_lookup.
  destruct (keyOf x) as [c|]; [|done].
  intros Hc. rewrite delete_id by done. by destruct s.
Qed.

Lemma Store_Store (s : syncmap.t) (x v v' : any) :
  selfEq x = true ->
  syncmap.Store (syncmap.Store s x v) x v' = syncmap.Store s x v'.
Proof.
  unfold syncmap.Store, selfEq. destruct (keyOf x) as [c|]; [|done].
  intros _. cbn [syncmap.live syncmap.stray]. by rewrite insert_insert_eq.
Qed.

Lemma elem_of_entries (s : syncmap.t) (x v : any) :
  (x, v) ∈ syncmap.entries s
  <-> s !! x = Some v \/ (x = nan /\ v ∈ syncmap.stray s).
Proof.
  unfold syncmap.entries. rewrite elem_of_app, !list_elem_of_fmap.
  split.
  - intros [([c w] & [= -> ->] & Hin)|(w & [= -> ->] & Hin)].
    + left. apply elem_of_map_to_list in Hin.
      unfold lookup, syncmap.t_lookup. by rewrite keyOf_anyOf.
    + by right.
  - intros [Hl|[-> Hin]].
    + left. unfold lookup, syncmap.t_lookup in Hl.
      destruct (keyOf x) as [c|] eqn:Ex; [|done].
      exists (c, v). split.
      * cbn. by rewrite (anyOf_keyOf _ _ Ex).
      * by apply elem_of_map_to_list.
    + right. by exists v.
Qed.

(** ** Basic facts *)

Lemma lazyInit_syncMap (m : SyncMap) :
  syncMap (lazyInit m) = Some (backing m).
Proof. by destruct m as [[s|] l]. Qed.

Lemma backing_lazyInit (m : SyncMap) : backing (lazyInit m) = backing m.
Proof. by destruct m as [[s|] l]. Qed.

Lemma lazyInit_idem (m : SyncMap) : lazyInit (lazyInit m) = lazyInit m.
Proof. by destruct m as [[s|] l]. Qed.

Lemma lazyInitAllocs_lazyInit (m : SyncMap) :
  lazyInitAllocs (lazyInit m) = 0%nat.
Proof. by destruct m as [[s|] l]. Qed.

Lemma lazyInit_setBacking (m : SyncMap) (s : syncmap.t) :
  lazyInit (setBacking m s) = setBacking m s.
Proof. done. Qed.

Lemma backing_setBacking (m : SyncMap) (s : syncmap.t) :
  backing (setBacking m s) = s.
Proof. done. Qed.

Lemma setBacking_same (m : SyncMap) :
  setBacking (lazyInit m) (backing m) = lazyInit m.
Proof. by destruct m as [[s|] l]. Qed.

Section TypedFacts.
Context {K V : Type} `{GoType K} `{GoType V}.

Lemma box_inj (k1 k2 : K) : box k1 = box k2 -> k1 = k2.
Proof.
  intros E. destruct (box k1) as [d|] eqn:E1.
  - assert (Some k1 = Some k2) as [=]; [|done].
    rewrite <- (assert_box k1), <- (assert_box k2); congruence.
  - rewrite (box_nil_zero k1), (box_nil_zero k2); congruence.
Qed.

Lemma assert_notNil (x : any) (v : V) : assert x = Some v -> notNil x = true.
Proof. destruct x; [done|]. by rewrite assert_nil. Qed.

Lemma Load_found (m : SyncMap) (k : K) :
  Load m k = (lazyInit m, found (backing m !! box k)).
Proof.
  unfold Load, syncmap.Load, found, typed, typedOk.
  rewrite backing_lazyInit.
  destruct (backing m !! box k) as [x|]; simpl.
  - destruct (assert x) as [v|] eqn:E; [|done].
    by rewrite (assert_notNil _ _ E).
  - by rewrite assert_nil.
Qed.

Lemma backing_Store (m : SyncMap) (k : K) (v : V) :
  backing (Store m k v) = syncmap.Store (backing m) (box k) (box v).
Proof. unfold Store. by rewrite backing_setBacking, backing_lazyInit. Qed.

Lemma backing_Delete (m : SyncMap) (k : K) :
  backing (Delete m k) = syncmap.Delete (backing m) (box k).
Proof. unfold Delete. by rewrite backing_setBacking, backing_lazyInit. Qed.

Lemma lazyInit_Store (m : SyncMap) (k : K) (v : V) :
  lazyInit (Store m k v) = Store m k v.
Proof. done. Qed.

Lemma localLock_Store (m : SyncMap) (k : K) (v : V) :
  localLock (Store m k v) = localLock (lazyInit m).
Proof. done. Qed.

Lemma typed_box (v : V) : typed (box v) = v.
Proof.
  unfold typed. destruct (box v) as [d|] eqn:E.
  - rewrite <- E, assert_box; [done|]. by rewrite E.
  - rewrite assert_nil. symmetry. by apply box_nil_zero.
Qed.

Lemma typedOk_box (v : V) : typedOk (T:=V) (box v) = notNil (box v).
Proof.
  unfold typedOk. pose proof (assert_box v) as A.
  destruct (box v) as [d|].
  - by rewrite A.
  - by rewrite assert_nil.
Qed.

Lemma notNil_box (v : V) : isNil v = false -> notNil (box v) = true.
Proof.
  intros Hv. destruct (box v) eqn:E; [done|].
  apply box_nil_isNil in E. congruence.
Qed.

Lemma found_box_any (v : V) : found (Some (box v)) = (v, notNil (box v)).
Proof.
  unfold found. pose proof (assert_box v) as A.
  pose proof (box_nil_zero v) as Z.
  destruct (box v) as [d|].
  - by rewrite A.
  - rewrite assert_nil, Z; done.
Qed.

Lemma found_flag (o : option any) (v : V) :
  found o = (v, true) -> exists x, o = Some x /\ assert x = Some v.
Proof.
  unfold found. destruct o as [x|]; [|done].
  destruct (assert x) as [w|] eqn:E; [|done].
  intros [= ->]. eauto.
Qed.

Lemma found_not (o : option any) :
  (found (V:=V) o).2 = false -> found (V:=V) o = (zero, false).
Proof.
  unfold found. destruct o as [x|]; [|done].
  by destruct (assert x).
Qed.

Lemma found_true_inv (o : option any) (v : V) :
  found o = (v, true) -> o = Some (box v) /\ box v <> None.
Proof.
  intros Hf. destruct (found_flag _ _ Hf) as (x & -> & Ex).
  rewrite (box_assert _ _ Ex). split; [done|].
  intros ->. rewrite assert_nil in Ex. discriminate Ex.
Qed.

Lemma Load_Store (m : SyncMap) (k : K) (v : V) :
  Load (Store m k v) k
  = (Store m k v,
     if selfEq (box k) then (v, notNil (box v)) else (zero, false)).
Proof.
  rewrite Load_found, backing_Store, lookup_Store, eqAny_refl, lazyInit_Store.
  destruct (selfEq (box k)) eqn:Es.
  - by rewrite found_box_any.
  - by rewrite lookup_notSelfEq.
Qed.

Lemma Load_Store_ne (m : SyncMap) (k k' : K) (v : V) :
  k' <> k -> (Load (V:=V) (Store m k' v) k).2 = (Load (V:=V) m k).2.
Proof.
  intros Hne. rewrite !Load_found, backing_Store, lookup_Store. simpl.
  rewrite eqAny_ne; [done|]. intros E. by apply box_inj in E.
Qed.

Lemma storeAll_other (m : SyncMap) (ops : list (K * V)) (k : K) :
  Forall (fun kv => kv.1 <> k) ops ->
  (Load (V:=V) (storeAll m ops) k).2 = (Load (V:=V) m k).2.
Proof.
  unfold storeAll. revert m.
  induction ops as [|[k' v'] ops IH]; intros m Hops; simpl; [done|].
  inversion Hops as [|? ? Hk Hrest]; subst.
  rewrite IH by done. by apply Load_Store_ne.
Qed.

Lemma NewSyncMap_other (maps : list (list (K * V))) (k : K) :
  Forall (Forall (fun kv => kv.1 <> k)) maps ->
  (Load (V:=V) (NewSyncMap maps) k).2 = (zero, false).
Proof.
  unfold NewSyncMap.
  set (fresh := {| syncMap := Some ∅; localLock := Some false |}).
  assert ((Load (V:=V) fresh k).2 = (zero, false)) as Hfresh.
  { rewrite Load_found. cbn [snd backing syncMap fresh].
    by rewrite lookup_t_empty. }
  revert Hfresh. generalize fresh. clear fresh.
  induction maps as [|mp maps IH]; intros m Hm Hmaps; simpl; [done|].
  inversion Hmaps as [|? ? Hmp Hrest]; subst.
  apply IH; [|done].
  rewrite <- Hm. apply (storeAll_other m mp k Hmp).
Qed.

End TypedFacts.

(** ** Single-key accessors *)

Section Accessors.
Context {K V : Type} `{GoType K} `{GoType V}.

(** C1 (amended). A key that was never stored loads as (zero value, false):
    the container starts as a zero value or comes from [NewSyncMap] over maps
    without the key, and any number of [Store] calls on other keys follow.
    After [Store k v] with [v] not nil, [Load k] returns (v, true) when the key
    is [==] to itself, on every container, and (zero value, false) when it is
    not. *)
Theorem C1_load_unstored_and_stored
    (fresh : SyncMap) (maps : list (list (K * V))) (ops : list (K * V))
    (k : K) (v : V) :
  fresh = zeroSyncMap \/ fresh = NewSyncMap maps ->
  Forall (Forall (fun kv => kv.1 <> k)) maps ->
  Forall (fun kv => kv.1 <> k) ops ->
  isNil v = false ->
  (Load (V:=V) (storeAll fresh ops) k).2 = (zero, false)
  /\ (forall m : SyncMap,
         selfEq (box k) = true -> (Load (Store m k v) k).2 = (v, true))
  /\ (forall m : SyncMap,
         selfEq (box k) = false -> (Load (Store m k v) k).2 = (zero, false)).
Proof.
  intros Hfresh Hmaps Hops Hv. split; [|split].
  - rewrite storeAll_other by done.
    destruct Hfresh as [-> | ->].
    + rewrite Load_found. cbn [snd backing zeroSyncMap syncMap].
      by rewrite lookup_t_empty.
    + by apply NewSyncMap_other.
  - intros m Hk. rewrite Load_Store, Hk. cbn [snd].
    by rewrite (notNil_box v Hv).
  - intros m Hk. by rewrite Load_Store, Hk.
Qed.

(** C9 (amended). [Store] on a zero-value container initialises it:
    [lazyInit] runs its allocating branch once on the zero value, giving an
    empty backing store and a free lock, and not again afterwards; the backing
    store then holds the one entry.  When the key is [==] to itself the
    following [Load] returns the stored value, with the flag true when the
    value is not nil. *)
Theorem C9_zero_value_store_then_load (k : K) (v : V) :
  lazyInitStep zeroSyncMap
  = ({| syncMap := Some ∅; localLock := Some false |}, 1%nat)
  /\ syncMap (Store zeroSyncMap k v) = Some (<[box k := box v]> ∅)
  /\ syncmap.entries (backing (Store zeroSyncMap k v)) = [(box k, box v)]
  /\ localLock (Store zeroSyncMap k v) = Some false
  /\ lazyInitAllocs (Store zeroSyncMap k v) = 0%nat
  /\ lazyInit (Store zeroSyncMap k v) = Store zeroSyncMap k v
  /\ (selfEq (box k) = true ->
      Load (Store zeroSyncMap k v) k
      = (Store zeroSyncMap k v, (v, notNil (box v))))
  /\ (selfEq (box k) = true -> isNil v = false ->
      (Load (Store zeroSyncMap k v) k).2 = (v, true)).
Proof.
  split; [done|]. split; [done|]. split.
  - rewrite backing_Store. cbn [backing zeroSyncMap syncMap].
    unfold syncmap.Store, syncmap.entries.
    change (syncmap.live ∅) with (∅ : gmap key any).
    change (syncmap.stray ∅) with (@nil any).
    destruct (keyOf (box k)) as [c|] eqn:Ek; cbn [syncmap.live syncmap.stray].
    + rewrite insert_empty, map_to_list_singleton. cbn.
      by rewrite (anyOf_keyOf _ _ Ek).
    + rewrite map_to_list_empty. cbn. by rewrite (keyOf_None _ Ek).
  - repeat split; try done.
    + intros Hk. by rewrite Load_Store, Hk.
    + intros Hk Hv. rewrite Load_Store, Hk. cbn [snd].
      by rewrite (notNil_box v Hv).
Qed.

(** C10. [Get] returns what [GetOrDefault] returns without a default; the
    value is the one [Load] returns, and it is the zero value whenever
    [Load] reports not found (absent key, stored nil, mismatched type). *)
Theorem C10_Get_is_GetOrDefault_without_default (m : SyncMap) (k : K) :
  Get (V:=V) m k = GetOrDefault (V:=V) m k []
  /\ (Get (V:=V) m k).2 = (Load (V:=V) m k).2.1
  /\ ((Load (V:=V) m k).2.2 = false ->
      (Get (V:=V) m k).2 = zero /\ (GetOrDefault (V:=V) m k []).2 = zero).
Proof.
  assert (Get (V:=V) m k = GetOrDefault (V:=V) m k []) as E by done.
  assert ((Get (V:=V) m k).2 = (Load (V:=V) m k).2.1) as E2.
  { unfold Get, Load, syncmap.Load, typed, typedOk.
    destruct (backing (lazyInit m) !! box k) as [x|]; simpl.
    - destruct x as [d|]; simpl; [|by rewrite assert_nil].
      by destruct (assert (Some d)).
    - by rewrite assert_nil. }
  split; [done|]. split; [done|].
  intros Hnf. rewrite <- E, E2.
  split; rewrite Load_found in *; simpl in *; by rewrite (found_not _ Hnf).
Qed.

End Accessors.

Section ReadModifyWrite.
Context {K V : Type} `{GoType K} `{GoType V}.

Lemma LoadAndDelete_found (m : SyncMap) (k : K) :
  LoadAndDelete (V:=V) m k
  = (setBacking (lazyInit m) (syncmap.Delete (backing m) (box k)),
     found (backing m !! box k)).
Proof.
  unfold LoadAndDelete, syncmap.LoadAndDelete, syncmap.Load, found, typed, typedOk.
  rewrite backing_lazyInit.
  destruct (backing m !! box k) as [x|]; simpl.
  - destruct (assert x) as [v|] eqn:E; [|done].
    by rewrite (assert_notNil _ _ E).
  - by rewrite assert_nil.
Qed.

Lemma Swap_found (m : SyncMap) (k : K) (v : V) :
  Swap m k v = (Store m k v, found (backing m !! box k)).
Proof.
  unfold Swap, Store, syncmap.Swap, syncmap.Load, found, typed, typedOk.
  rewrite backing_lazyInit.
  destruct (backing m !! box k) as [x|]; simpl.
  - by destruct (assert x).
  - by rewrite assert_nil.
Qed.

Lemma LoadOrStore_absent (m : SyncMap) (k : K) (v : V) :
  backing m !! box k = None ->
  LoadOrStore m k v = (Store m k v, (v, false)).
Proof.
  intros Hk. unfold LoadOrStore, Store, syncmap.LoadOrStore.
  rewrite backing_lazyInit, Hk. by rewrite typed_box.
Qed.

Lemma LoadOrStore_entry (m : SyncMap) (k : K) (v : V) (x : any) :
  backing m !! box k = Some x ->
  LoadOrStore m k v = (lazyInit m, found (Some x)).
Proof.
  intros Hk. unfold LoadOrStore, syncmap.LoadOrStore, found, typed, typedOk.
  rewrite backing_lazyInit, Hk, setBacking_same.
  by destruct (assert x).
Qed.

Lemma lookup_selfEq (s : syncmap.t) (x v : any) :
  s !! x = Some v -> selfEq x = true.
Proof.
  intros Hl. destruct (selfEq x) eqn:E; [done|].
  by rewrite lookup_notSelfEq in Hl.
Qed.

Lemma entries_Store_mem (s : syncmap.t) (x v : any) :
  (x, v) ∈ syncmap.entries (syncmap.Store s x v).
Proof.
  apply elem_of_entries. destruct (selfEq x) eqn:Ex.
  - left. by rewrite lookup_Store, eqAny_refl, Ex.
  - right. split; [by apply selfEq_false|].
    unfold syncmap.Store, selfEq in *.
    destruct (keyOf x); [done|]. cbn [syncmap.stray].
    apply elem_of_app. right. apply list_elem_of_here.
Qed.

(** C6. On a key for which [Load] reports a value, [LoadAndDelete] returns
    (that value, true) and removes the entry in the same step; a following
    [Load] returns (zero value, false). *)
Theorem C6_LoadAndDelete_present (m : SyncMap) (k : K) (v : V) :
  (Load m k).2 = (v, true) ->
  (LoadAndDelete m k).2 = (v, true)
  /\ backing (LoadAndDelete (V:=V) m k).1 = delete (box k) (backing m)
  /\ (Load (V:=V) (LoadAndDelete (V:=V) m k).1 k).2 = (zero, false).
Proof.
  rewrite Load_found, LoadAndDelete_found. simpl. intros Hv.
  split; [done|]. split; [done|].
  rewrite Load_found, backing_setBacking, lookup_Delete, eqAny_refl.
  destruct (selfEq (box k)) eqn:Ek; [done|].
  by rewrite lookup_notSelfEq.
Qed.

(** C7. [Swap] returns what [Load] would have returned: (previous, true) on
    a key holding a present value, whose value it replaces, so that [Load]
    then returns the new one; (zero value, false) on a key that loads as
    not found.  In both cases the new value is stored: the backing store is
    the one [Store] leaves, and the entry is among those it holds. *)
Theorem C7_Swap_present_and_absent (m : SyncMap) (k : K) (v : V) :
  (forall previous : V,
      (Load m k).2 = (previous, true) ->
      (Swap m k v).2 = (previous, true)
      /\ Load (Swap m k v).1 k = ((Swap m k v).1, (v, notNil (box v))))
  /\ ((Load (V:=V) m k).2.2 = false -> (Swap m k v).2 = (zero, false))
  /\ backing (Swap m k v).1 = <[box k := box v]> (backing m)
  /\ (box k, box v) ∈ syncmap.entries (backing (Swap m k v).1).
Proof.
  rewrite Swap_found, Load_found. cbn [fst snd]. split; [|split; [|split]].
  - intros previous Hp. split; [done|].
    destruct (found_true_inv _ _ Hp) as [Hs _].
    by rewrite Load_Store, (lookup_selfEq _ _ _ Hs).
  - apply found_not.
  - apply backing_Store.
  - rewrite backing_Store. apply entries_Store_mem.
Qed.

(** C3 (amended). On a key with no entry in the backing store,
    [LoadOrStore] stores the value and returns (value, false), and a
    following [Load] returns (value, true) when the key is [==] to itself
    and the value is not nil.  On a key for which [Load] reports a value it
    returns (existing, true) and the backing store is unchanged. *)
Theorem C3_LoadOrStore_no_entry_or_present (m : SyncMap) (k : K) (v : V) :
  (backing m !! box k = None ->
     (LoadOrStore m k v).2 = (v, false)
     /\ backing (LoadOrStore m k v).1 = <[box k := box v]> (backing m)
     /\ (selfEq (box k) = true -> isNil v = false ->
         (Load (LoadOrStore m k v).1 k).2 = (v, true)))
  /\ (forall existing : V,
        (Load m k).2 = (existing, true) ->
        (LoadOrStore m k v).2 = (existing, true)
        /\ backing (LoadOrStore m k v).1 = backing m
        /\ (Load (LoadOrStore m k v).1 k).2 = (existing, true)).
Proof.
  split.
  - intros Hk. rewrite (LoadOrStore_absent _ _ _ Hk). simpl.
    split; [done|]. split; [apply backing_Store|].
    intros Hs Hv. rewrite Load_Store, Hs. cbn [snd].
    by rewrite (notNil_box v Hv).
  - intros existing. rewrite Load_found. simpl. intros Hf.
    destruct (found_flag _ _ Hf) as (x & Hx & _).
    rewrite (LoadOrStore_entry _ _ _ _ Hx). cbn [fst snd].
    rewrite Load_found, !backing_lazyInit.
    cbn [fst snd]. rewrite <- Hx. done.
Qed.

End ReadModifyWrite.

(** ** Composite operations *)

Lemma withLocalLock_free {A : Type} (m : SyncMap)
    (body : SyncMap -> SyncMap * A) :
  localLock m = Some false ->
  withLocalLock m body
  = Returns (setLock (body (setLock m true)).1 false, (body (setLock m true)).2).
Proof.
  intros Hl. unfold withLocalLock. rewrite Hl.
  by destruct (body (setLock m true)).
Qed.

Lemma setLock_release (m : SyncMap) :
  localLock m = Some false -> setLock (setLock m true) false = m.
Proof. destruct m as [s l]. simpl. by intros ->. Qed.

Lemma visit_app_continue {St : Type} (f : any -> any -> St -> St * bool)
    (l1 l2 : list (any * any)) (st : St) :
  (forall (k v : any) (st : St), (f k v st).2 = true) ->
  syncmap.visit f (l1 ++ l2) st = syncmap.visit f l2 (syncmap.visit f l1 st).
Proof.
  intros Hf. revert st. induction l1 as [|[k v] l1 IH]; intros st; [done|].
  cbn [app syncmap.visit]. pose proof (Hf k v st) as Hc.
  destruct (f k v st) as [st' c]. cbn [snd] in Hc. subst c. apply IH.
Qed.

Lemma foldl_delete_lookup (l : list (key * any)) (g : gmap key any) (c : key) :
  foldl (fun g (e : key * any) => delete e.1 g) g l !! c
  = if decide (c ∈ l.*1) then None else g !! c.
Proof.
  revert g. induction l as [|[c0 v0] l IH]; intros g.
  - cbn [foldl]. rewrite decide_False; [done|].
    rewrite fmap_nil. apply not_elem_of_nil.
  - cbn [foldl fst]. rewrite IH, fmap_cons. cbn [fst].
    destruct (decide (c = c0)) as [->|Hne].
    + rewrite lookup_delete_eq, (decide_True (P := c0 ∈ c0 :: l.*1)).
      * by destruct (decide (c0 ∈ l.*1)).
      * apply list_elem_of_here.
    + rewrite lookup_delete_ne by done.
      destruct (decide (c ∈ l.*1)) as [Hin|Hin].
      * rewrite decide_True; [done|]. by apply list_elem_of_further.
      * rewrite decide_False; [done|].
        intros [?|?]%elem_of_cons; done.
Qed.

Lemma visit_delete_live (l : list (key * any)) (s : syncmap.t) :
  syncmap.visit (fun key _ s => (syncmap.Delete s key, true))
    (prod_map anyOf id <$> l) s
  = {| syncmap.live := foldl (fun g (e : key * any) => delete e.1 g)
                         (syncmap.live s) l;
       syncmap.stray := syncmap.stray s |}.
Proof.
  revert s. induction l as [|[c v] l IH]; intros s; [by destruct s|].
  rewrite fmap_cons. cbn [syncmap.visit prod_map fst snd id].
  rewrite IH. unfold syncmap.Delete. by rewrite keyOf_anyOf.
Qed.

Lemma visit_delete_stray (vs : list any) (s : syncmap.t) :
  syncmap.visit (fun key _ s => (syncmap.Delete s key, true))
    ((fun v : any => (nan, v)) <$> vs) s
  = s.
Proof. induction vs as [|v vs IH]; [done|]. rewrite fmap_cons. apply IH. Qed.

(** What the traversal of [Clear] leaves: the entries under self-equal keys
    are gone, those under NaN stay. *)
Lemma Range_delete_all (s : syncmap.t) :
  syncmap.Range s (fun key _ s => (syncmap.Delete s key, true)) s
  = {| syncmap.live := ∅; syncmap.stray := syncmap.stray s |}.
Proof.
  unfold syncmap.Range, syncmap.entries.
  rewrite visit_app_continue by done.
  rewrite visit_delete_live, visit_delete_stray. f_equal.
  apply map_eq. intros c.
  rewrite foldl_delete_lookup, lookup_empty.
  case_decide as Hin; [done|].
  destruct (syncmap.live s !! c) as [v|] eqn:E; [|done].
  exfalso. apply Hin. apply list_elem_of_fmap.
  exists (c, v). split; [done|]. by apply elem_of_map_to_list.
Qed.

Lemma Clear_returns (m : SyncMap) :
  lockFree m ->
  Clear m
  = Returns {| syncMap := Some {| syncmap.live := ∅;
                                  syncmap.stray := syncmap.stray (backing m) |};
               localLock := Some false |}.
Proof.
  intros Hl. unfold Clear. rewrite (withLocalLock_free _ _ Hl).
  cbn [fst snd]. rewrite Range_delete_all.
  by destruct m as [[?|] ?].
Qed.

Section Traversal.
Context {K V : Type} `{GoType K} `{GoType V}.

Lemma Range_returns {S : Type} (m : SyncMap) (fn : K -> V -> S -> S * call)
    (s : S) (lg : list logline) :
  lockFree m ->
  Range m fn s lg
  = Returns (lazyInit m,
             syncmap.visit (wrappedFn fn) (syncmap.entries (backing m)) (s, lg)).
Proof.
  intros Hl. unfold Range. rewrite (withLocalLock_free _ _ Hl).
  cbn [fst snd]. rewrite (setLock_release _ Hl).
  unfold syncmap.Range. do 3 f_equal.
  by destruct m as [[?|] ?].
Qed.

(** A panic of the visitor on one entry: recovered, logged, and the entry
    counts as one for which the visitor returned [true]. *)
Lemma wrappedFn_panic {S : Type} (fn : K -> V -> S -> S * call)
    (key value : any) (typedKey : K) (typedValue : V)
    (s s' : S) (r : dyn) (lg : list logline) :
  assert key = Some typedKey ->
  assert value = Some typedValue ->
  fn typedKey typedValue s = (s', Panics r) ->
  wrappedFn fn key value (s, lg) = ((s', lg ++ [RangePanic r]), true).
Proof. intros Hk Hv Hfn. unfold wrappedFn. by rewrite Hk, Hv, Hfn. Qed.

(** A failed assertion on the key or the value: the visitor is not called,
    the entry is logged, and the traversal goes on. *)
Lemma wrappedFn_assert_failed {S : Type} (fn : K -> V -> S -> S * call)
    (key value : any) (s : S) (lg : list logline) :
  assert (T:=K) key = None \/ assert (T:=V) value = None ->
  wrappedFn fn key value (s, lg) = ((s, lg ++ [RangeAssertFailed key]), true).
Proof.
  intros [Hk|Hv]; unfold wrappedFn.
  - by rewrite Hk.
  - rewrite Hv. by destruct (assert key).
Qed.

Lemma visit_continueOnPanic {S : Type} (fn : K -> V -> S -> S * call)
    (l : list (any * any)) (s : S) (lgA lgB : list logline) :
  exists (s' : S) (ext : list logline),
    syncmap.visit (wrappedFn fn) l (s, lgA) = (s', lgA ++ ext)
    /\ syncmap.visit (wrappedFn (continueOnPanic fn)) l (s, lgB)
       = (s', lgB ++ List.filter isAssertLine ext).
Proof.
  revert s lgA lgB.
  induction l as [|[key value] l IH]; intros s lgA lgB.
  - exists s, []. by rewrite !app_nil_r.
  - cbn [syncmap.visit]. unfold wrappedFn at 1 3, continueOnPanic at 1.
    destruct (assert key) as [tk|]; [destruct (assert value) as [tv|]|].
    + destruct (fn tk tv s) as [s1 [[|]|r]].
      * apply IH.
      * exists s1, []. by rewrite !app_nil_r.
      * destruct (IH s1 (lgA ++ [RangePanic r]) lgB) as (s' & ext & E1 & E2).
        exists s', (RangePanic r :: ext).
        rewrite E1, E2. by rewrite <- app_assoc.
    + destruct (IH s (lgA ++ [RangeAssertFailed key])
                  (lgB ++ [RangeAssertFailed key])) as (s' & ext & E1 & E2).
      exists s', (RangeAssertFailed key :: ext).
      rewrite E1, E2. by rewrite <- !app_assoc.
    + destruct (IH s (lgA ++ [RangeAssertFailed key])
                  (lgB ++ [RangeAssertFailed key])) as (s' & ext & E1 & E2).
      exists s', (RangeAssertFailed key :: ext).
      rewrite E1, E2. by rewrite <- !app_assoc.
Qed.

Lemma wellTyped_typedEntry (e : any * any) :
  wellTyped K V e
  = match typedEntry (K:=K) (V:=V) e with Some _ => true | None => false end.
Proof.
  unfold wellTyped, typedEntry, typedOk.
  destruct (assert (T:=K) e.1); [|done]. by destruct (assert (T:=V) e.2).
Qed.

(** The traversal with a visitor that never returns [false], its calls
    recorded: every entry that passes the assertions is handed to the
    visitor, in order, whether or not earlier calls panicked. *)
Lemma visit_recordCalls {S : Type} (fn : K -> V -> S -> S * call) :
  (forall (k : K) (v : V) (s : S), (fn k v s).2 <> Ret false) ->
  forall (l : list (any * any)) (s : S) (calls : list (K * V * call))
         (lg : list logline),
  exists (s' : S) (new : list (K * V * call)) (ext : list logline),
    syncmap.visit (wrappedFn (recordCalls fn)) l ((s, calls), lg)
    = ((s', calls ++ new), lg ++ ext)
    /\ syncmap.visit (wrappedFn fn) l (s, lg) = (s', lg ++ ext)
    /\ new.*1 = omap typedEntry l
    /\ omap panicLine new
       = List.filter (fun x => negb (isAssertLine x)) ext
    /\ (fun e : any * any => RangeAssertFailed e.1)
         <$> List.filter (fun e => negb (wellTyped K V e)) l
       = List.filter isAssertLine ext.
Proof.
  intros Hgo l. induction l as [|[key value] l IH]; intros s calls lg.
  - exists s, [], []. by rewrite !app_nil_r.
  - cbn [syncmap.visit omap list_omap List.filter].
    rewrite wellTyped_typedEntry.
    assert (typedEntry (K:=K) (V:=V) (key, value)
            = match assert (T:=K) key, assert (T:=V) value with
              | Some k, Some v => Some (k, v)
              | _, _ => None
              end) as -> by done.
    unfold wrappedFn at 1 3, recordCalls at 1.
    destruct (assert (T:=K) key) as [tk|];
      [destruct (assert (T:=V) value) as [tv|]|]; cbn [negb].
    + pose proof (Hgo tk tv s) as Hc.
      destruct (fn tk tv s) as [s1 [[|]|r]]; cbn [snd] in Hc; [|done|].
      * destruct (IH s1 (calls ++ [(tk, tv, Ret true)]) lg)
          as (s' & new & ext & E1 & E2 & E3 & E4 & E5).
        exists s', ((tk, tv, Ret true) :: new), ext.
        rewrite E1, E2, <- app_assoc, fmap_cons, E3.
        repeat split; done.
      * destruct (IH s1 (calls ++ [(tk, tv, Panics r)])
                    (lg ++ [RangePanic r]))
          as (s' & new & ext & E1 & E2 & E3 & E4 & E5).
        exists s', ((tk, tv, Panics r) :: new), (RangePanic r :: ext).
        rewrite E1, E2, <- !app_assoc, fmap_cons, E3.
        cbn [omap list_omap panicLine snd List.filter isAssertLine negb].
        rewrite E4. repeat split; done.
    + destruct (IH s calls (lg ++ [RangeAssertFailed key]))
        as (s' & new & ext & E1 & E2 & E3 & E4 & E5).
      exists s', new, (RangeAssertFailed key :: ext).
      rewrite E1, E2, <- !app_assoc, fmap_cons, E5.
      cbn [app List.filter isAssertLine negb].
      repeat split; done.
    + destruct (IH s calls (lg ++ [RangeAssertFailed key]))
        as (s' & new & ext & E1 & E2 & E3 & E4 & E5).
      exists s', new, (RangeAssertFailed key :: ext).
      rewrite E1, E2, <- !app_assoc, fmap_cons, E5.
      cbn [app List.filter isAssertLine negb].
      repeat split; done.
Qed.

End Traversal.

Section TraversalClaims.
Context {K V : Type} `{GoType K} `{GoType V}.

(** C4. With the local lock free, [Range] returns whatever the visitor does:
    it leaves the container initialised with the lock released and the log
    extended, and ends in the same caller state as with the visitor that
    returns [true] where the given one panics, the two logs differing by the
    panic lines only.  When the visitor never returns [false], its recorded
    calls are exactly the entries of the backing store that pass the
    assertions, in traversal order, whether or not earlier calls panicked; the
    log gains one line for each call that panicked and one for each entry that
    fails an assertion.  On a single entry, a panic and a failed assertion
    each add one log line and make the wrapped callback return [true]. *)
Theorem C4_Range_isolates_faults {S : Type} (m : SyncMap)
    (fn : K -> V -> S -> S * call) (s : S) (lg : list logline) :
  lockFree m ->
  (exists (s' : S) (ext : list logline),
      Range m fn s lg = Returns (lazyInit m, (s', lg ++ ext))
      /\ localLock (lazyInit m) = Some false
      /\ Range m (continueOnPanic fn) s lg
         = Returns (lazyInit m, (s', lg ++ List.filter isAssertLine ext)))
  /\ ((forall (k : K) (v : V) (s0 : S), (fn k v s0).2 <> Ret false) ->
      exists (s' : S) (calls : list (K * V * call)) (ext : list logline),
        Range m (recordCalls fn) (s, []) lg
        = Returns (lazyInit m, ((s', calls), lg ++ ext))
        /\ Range m fn s lg = Returns (lazyInit m, (s', lg ++ ext))
        /\ calls.*1 = omap typedEntry (syncmap.entries (backing m))
        /\ omap panicLine calls
           = List.filter (fun x => negb (isAssertLine x)) ext
        /\ (fun e : any * any => RangeAssertFailed e.1)
             <$> List.filter (fun e => negb (wellTyped K V e))
                   (syncmap.entries (backing m))
           = List.filter isAssertLine ext)
  /\ (forall (key value : any) (typedKey : K) (typedValue : V)
             (s0 s1 : S) (r : dyn) (lg0 : list logline),
         assert key = Some typedKey ->
         assert value = Some typedValue ->
         fn typedKey typedValue s0 = (s1, Panics r) ->
         wrappedFn fn key value (s0, lg0) = ((s1, lg0 ++ [RangePanic r]), true))
  /\ (forall (key value : any) (s0 : S) (lg0 : list logline),
         assert (T:=K) key = None \/ assert (T:=V) value = None ->
         wrappedFn fn key value (s0, lg0)
         = ((s0, lg0 ++ [RangeAssertFailed key]), true)).
Proof.
  intros Hl. split; [|split; [|split]].
  - destruct (visit_continueOnPanic fn (syncmap.entries (backing m)) s lg lg)
      as (s' & ext & E1 & E2).
    exists s', ext. rewrite !Range_returns by done.
    by rewrite E1, E2.
  - intros Hgo.
    destruct (visit_recordCalls fn Hgo (syncmap.entries (backing m)) s [] lg)
      as (s' & new & ext & E1 & E2 & E3 & E4 & E5).
    exists s', new, ext. rewrite !Range_returns by done.
    by rewrite E1, E2.
  - intros. by eapply wrappedFn_panic.
  - intros. by apply wrappedFn_assert_failed.
Qed.


End TraversalClaims.

Section Merging.
Context {K V : Type} `{GoType K} `{GoType V}.

(** One [Range] pass that stores what it visits: the entries whose key and
    value pass their assertions are stored into [out], the others are
    skipped. *)
Lemma visit_store_backing (l : list (any * any)) (out : SyncMap)
    (lg : list logline) :
  backing (syncmap.visit
             (wrappedFn (K:=K) (V:=V) (fun k v out => (Store out k v, Ret true)))
             l (out, lg)).1
  = foldl (fun s (e : any * any) =>
             if wellTyped K V e then syncmap.Store s e.1 e.2 else s)
      (backing out) l.
Proof.
  revert out lg. induction l as [|[k0 v0] l IH]; intros out lg; [done|].
  cbn [syncmap.visit foldl]. unfold wrappedFn at 1, wellTyped at 2, typedOk.
  cbn [fst snd].
  destruct (assert (T:=K) k0) as [tk|] eqn:Ek;
    [destruct (assert (T:=V) v0) as [tv|] eqn:Ev|]; cbn [andb].
  - rewrite IH, backing_Store.
    by rewrite (box_assert _ _ Ek), (box_assert _ _ Ev).
  - apply IH.
  - apply IH.
Qed.

Lemma foldl_store_selfEq (l : list (any * any)) :
  NoDup l.*1 ->
  Forall (fun e : any * any => selfEq e.1 = true) l ->
  forall (s : syncmap.t) (kk : any),
    foldl (fun s (e : any * any) =>
             if wellTyped K V e then syncmap.Store s e.1 e.2 else s) s l !! kk
    = match (list_to_map l : gmap any any) !! kk with
      | Some x => if wellTyped K V (kk, x) then Some x else s !! kk
      | None => s !! kk
      end.
Proof.
  induction l as [|[k0 v0] l IH]; intros Hnd Hse s kk.
  - cbn [foldl list_to_map foldr]. by rewrite lookup_empty.
  - rewrite fmap_cons in Hnd. apply NoDup_cons in Hnd as [Hk0 Hnd].
    cbn [fst] in Hk0. inversion Hse as [|? ? Hs0 Hse']; subst.
    cbn [fst] in Hs0.
    assert ((list_to_map l : gmap any any) !! k0 = None) as Hnone.
    { by apply not_elem_of_list_to_map_1. }
    cbn [foldl]. rewrite (IH Hnd Hse'), list_to_map_cons. cbn [fst snd].
    destruct (decide (kk = k0)) as [->|Hne].
    + rewrite Hnone, lookup_insert_eq.
      destruct (wellTyped K V (k0, v0)); [|done].
      by rewrite lookup_Store, eqAny_refl, Hs0.
    + rewrite lookup_insert_ne by done.
      destruct (wellTyped K V (k0, v0)); [|done].
      rewrite lookup_Store, eqAny_ne; done.
Qed.

Lemma foldl_store_stray (vs : list any) (s : syncmap.t) (kk : any) :
  foldl (fun s (e : any * any) =>
           if wellTyped K V e then syncmap.Store s e.1 e.2 else s) s
    ((fun v : any => (nan, v)) <$> vs) !! kk
  = s !! kk.
Proof.
  revert s. induction vs as [|v vs IH]; intros s; [done|].
  rewrite fmap_cons. cbn [foldl]. rewrite IH.
  destruct (wellTyped K V (nan, v)); [|done].
  by rewrite lookup_Store.
Qed.

Lemma live_entries_NoDup (g : gmap key any) :
  NoDup (prod_map anyOf id <$> map_to_list g).*1.
Proof.
  rewrite <- list_fmap_compose.
  assert ((fst ∘ prod_map anyOf id) <$> map_to_list g
          = anyOf <$> (map_to_list g).*1) as ->.
  { rewrite <- list_fmap_compose. apply list_fmap_ext. by intros ? []. }
  apply NoDup_fmap_2.
  - intros c1 c2. apply anyOf_inj.
  - apply NoDup_fst_map_to_list.
Qed.

Lemma live_entries_lookup (s : syncmap.t) (kk : any) :
  selfEq kk = true ->
  (list_to_map (prod_map anyOf id <$> map_to_list (syncmap.live s))
     : gmap any any) !! kk
  = s !! kk.
Proof.
  intros Hk. apply option_eq. intros x.
  rewrite <- elem_of_list_to_map by apply live_entries_NoDup.
  rewrite list_elem_of_fmap.
  assert (s !! kk = match keyOf kk with
                    | Some c => syncmap.live s !! c
                    | None => None
                    end) as -> by done.
  unfold selfEq in Hk. destruct (keyOf kk) as [c|] eqn:Ec; [|done].
  split.
  - intros ([c' w] & [= E ->] & Hin). apply elem_of_map_to_list in Hin.
    rewrite <- (anyOf_keyOf _ _ Ec) in E. apply anyOf_inj in E. by subst.
  - intros Hl. exists (c, x). split.
    + cbn. by rewrite (anyOf_keyOf _ _ Ec).
    + by apply elem_of_map_to_list.
Qed.

Lemma Range_store_lookup (src out : SyncMap) (lg : list logline) (kk : any) :
  backing (syncmap.visit
             (wrappedFn (K:=K) (V:=V) (fun k v out => (Store out k v, Ret true)))
             (syncmap.entries (backing src)) (out, lg)).1 !! kk
  = match backing src !! kk with
    | Some x =>
        if typedOk (T:=K) kk && typedOk (T:=V) x then Some x
        else backing out !! kk
    | None => backing out !! kk
    end.
Proof.
  rewrite visit_store_backing.
  destruct (selfEq kk) eqn:Hk.
  - unfold syncmap.entries. rewrite foldl_app, foldl_store_stray.
    rewrite foldl_store_selfEq.
    + by rewrite live_entries_lookup.
    + apply live_entries_NoDup.
    + apply Forall_fmap, Forall_forall. intros [c w] _. apply selfEq_anyOf.
  - by rewrite !lookup_notSelfEq.
Qed.

Lemma visit_store_lockFree (l : list (any * any)) (out : SyncMap)
    (lg : list logline) :
  lockFree out ->
  lockFree (syncmap.visit
              (wrappedFn (K:=K) (V:=V)
                 (fun k v out => (Store out k v, Ret true)))
              l (out, lg)).1.
Proof.
  revert out lg. induction l as [|[k0 v0] l IH]; intros out lg Hl; [done|].
  cbn [syncmap.visit]. unfold wrappedFn at 1.
  destruct (assert (T:=K) k0) as [tk|];
    [destruct (assert (T:=V) v0) as [tv|]|]; by apply IH.
Qed.

(** [Merge] seen through [Load]: at every key that is not the nil interface,
    the result reads as [b] where [b] has a value and as [a] elsewhere. *)
Lemma Merge_overlay (a b : SyncMap) (lg : list logline) :
  lockFree a -> lockFree b ->
  exists (out : SyncMap) (lg' : list logline),
    Merge (K:=K) (V:=V) a b lg = Returns (out, lg')
    /\ forall k : K,
         box k <> None ->
         (Load (V:=V) out k).2
         = if (Load (V:=V) b k).2.2 then (Load (V:=V) b k).2
           else (Load (V:=V) a k).2.
Proof.
  intros Ha Hb. unfold Merge.
  rewrite (Range_returns a) by done.
  pose proof (Range_store_lookup a zeroSyncMap lg) as La.
  destruct (syncmap.visit _ (syncmap.entries (backing a)) (zeroSyncMap, lg))
    as [out1 lg1].
  rewrite (Range_returns b) by done.
  pose proof (Range_store_lookup b out1 lg1) as Lb.
  destruct (syncmap.visit _ (syncmap.entries (backing b)) (out1, lg1))
    as [out2 lg2].
  exists out2, lg2. split; [done|].
  intros k Hk. cbn [fst] in La, Lb.
  rewrite !Load_found. cbn [snd].
  rewrite Lb, La. unfold typedOk, found.
  rewrite (assert_box k Hk). cbn [andb backing zeroSyncMap syncMap].
  rewrite lookup_t_empty.
  destruct (backing b !! box k) as [x|]; cbn [snd];
    [destruct (assert (T:=V) x) eqn:Ex; cbn [snd]; [by rewrite Ex|] |].
  all: destruct (backing a !! box k) as [y|]; cbn [snd]; [|done].
  all: by destruct (assert (T:=V) y) eqn:Ey; cbn [snd]; rewrite ?Ey.
Qed.

End Merging.

(** ** Merge *)

(** C8 (amended). With both local locks free, [Merge] returns a container
    that, at every key other than the nil interface, loads as [b] where [b]
    has a value and as [a] elsewhere.  Merging [{1:"x", 2:"y"}] with
    [{2:"z", 3:"w"}] gives [{1:"x", 2:"z", 3:"w"}] and logs nothing. *)
Theorem C8_Merge_overlays_b_on_a {K V : Type} `{GoType K} `{GoType V}
    (a b : SyncMap) (lg : list logline) :
  lockFree a -> lockFree b ->
  (exists (out : SyncMap) (lg' : list logline),
      Merge (K:=K) (V:=V) a b lg = Returns (out, lg')
      /\ forall k : K,
           box k <> None ->
           (Load (V:=V) out k).2
           = if (Load (V:=V) b k).2.2 then (Load (V:=V) b k).2
             else (Load (V:=V) a k).2)
  /\ Merge (K:=Z) (V:=string) exampleA exampleB [] = Returns (exampleMerged, []).
Proof.
  intros Ha Hb. split.
  - by apply Merge_overlay.
  - vm_compute. reflexivity.
Qed.

(** ** Concrete runs *)

(** C2. A nil pointer stored in a [SyncMap[string, *T]] loads as found:
    [Load] returns (nil, true), where an absent key gives (nil, false).  The
    conversion of the nil pointer to [any] is not the nil interface, so the
    comparison [value != nil] in [Load] holds.  A nil interface stored in a
    [SyncMap[string, any]] loads as (nil, false). *)
Theorem C2_stored_nil_pointer_loads_as_found :
  isNil NilPtr = true
  /\ (Load (K:=string) (V:=ptr) holdsNilPtr "k").2 = (NilPtr, true)
  /\ (Load (K:=string) (V:=ptr) zeroSyncMap "k").2 = (NilPtr, false)
  /\ (Load (K:=string) (V:=any) holdsNil "k").2 = (None, false).
Proof. repeat split; vm_compute; reflexivity. Qed.

(** C1, as stated, fails on a key that is not [==] to itself: after
    [Store(NaN, "v")] on a [SyncMap[float64, string]] the entry is in the
    backing store, and [Load(NaN)] returns (zero value, false). *)
Lemma C1_Load_after_Store_at_NaN :
  isNil "v"%string = false
  /\ syncmap.entries
       (backing (Store (K:=float64) (V:=string)
                   (NewSyncMap (K:=float64) (V:=string) []) FNaN "v"))
     = [(nan, Some (DString "v"))]
  /\ (Load (K:=float64) (V:=string)
        (Store (K:=float64) (V:=string)
           (NewSyncMap (K:=float64) (V:=string) []) FNaN "v") FNaN).2
     = (EmptyString, false)
  /\ ~ ((Load (K:=float64) (V:=string)
           (Store (K:=float64) (V:=string)
              (NewSyncMap (K:=float64) (V:=string) []) FNaN "v") FNaN).2
        = ("v"%string, true)).
Proof.
  split; [reflexivity|]. split; [vm_compute; reflexivity|].
  split; [vm_compute; reflexivity|].
  intros E. vm_compute in E. discriminate E.
Qed.

(** C9, as stated, fails on a key that is not [==] to itself: [Store(NaN,
    "v")] on a zero-value [SyncMap[float64, string]] initialises it and
    adds the entry, and the following [Load(NaN)] returns the zero value and
    false, not the stored value. *)
Lemma C9_Load_after_first_Store_at_NaN :
  syncmap.entries (backing nanKeyed) = [(nan, Some (DString "v"))]
  /\ lazyInitAllocs nanKeyed = 0%nat
  /\ (Load (K:=float64) (V:=string) nanKeyed FNaN).2 = (EmptyString, false)
  /\ ~ ((Load (K:=float64) (V:=string) nanKeyed FNaN).2.1 = "v"%string).
Proof.
  split; [vm_compute; reflexivity|]. split; [reflexivity|].
  split; [vm_compute; reflexivity|].
  intros E. vm_compute in E. discriminate E.
Qed.


(** C3, as stated, fails on a key that holds the nil interface: the key loads
    as not found, yet [LoadOrStore] returns (nil, false) instead of
    (value, false), stores nothing, and the key still loads as not found.  It
    also fails for a nil value on a key without entry: the value is stored and
    (nil, false) returned, and the key then loads as (nil, false). *)
Lemma C3_LoadOrStore_on_stored_nil :
  (Load (K:=string) (V:=any) holdsNil "k").2 = (None, false)
  /\ (LoadOrStore (K:=string) (V:=any) holdsNil "k" (Some (DInt 1))).2
     = (None, false)
  /\ (LoadOrStore (K:=string) (V:=any) holdsNil "k" (Some (DInt 1))).1
     = holdsNil
  /\ ~ ((LoadOrStore (K:=string) (V:=any) holdsNil "k" (Some (DInt 1))).2
        = (Some (DInt 1), false)
        /\ (Load (K:=string) (V:=any)
              (LoadOrStore (K:=string) (V:=any) holdsNil "k" (Some (DInt 1))).1
              "k").2
           = (Some (DInt 1), true))
  /\ (LoadOrStore (K:=string) (V:=any) zeroSyncMap "k" None).1 = holdsNil
  /\ (Load (K:=string) (V:=any)
        (LoadOrStore (K:=string) (V:=any) zeroSyncMap "k" None).1 "k").2
     = (None, false).
Proof.
  split; [vm_compute; reflexivity|].
  split; [vm_compute; reflexivity|].
  split; [vm_compute; reflexivity|].
  split; [|split; vm_compute; reflexivity].
  intros [E _]. vm_compute in E. discriminate E.
Qed.

(** C8, as stated, fails on an entry whose key is the nil interface: [a] loads
    the key as ("x", true), [Merge] skips the entry with a log line, and the
    merged container loads the key as not found. *)
Lemma C8_Merge_drops_nil_key :
  lockFree nilKeyed /\ lockFree zeroSyncMap
  /\ (Load (K:=any) (V:=string) nilKeyed None).2 = ("x"%string, true)
  /\ Merge (K:=any) (V:=string) nilKeyed zeroSyncMap []
     = Returns (zeroSyncMap, [RangeAssertFailed None])
  /\ (Load (K:=any) (V:=string) zeroSyncMap None).2 = (EmptyString, false)
  /\ ~ (exists (out : SyncMap) (lg : list logline),
           Merge (K:=any) (V:=string) nilKeyed zeroSyncMap [] = Returns (out, lg)
           /\ (Load (K:=any) (V:=string) out None).2
              = (Load (K:=any) (V:=string) nilKeyed None).2).
Proof.
  split; [reflexivity|]. split; [reflexivity|].
  split; [vm_compute; reflexivity|].
  assert (Merge (K:=any) (V:=string) nilKeyed zeroSyncMap []
          = Returns (zeroSyncMap, [RangeAssertFailed None])) as E.
  { vm_compute. reflexivity. }
  split; [exact E|]. split; [vm_compute; reflexivity|].
  intros (out & lg & Em & El). rewrite E in Em.
  injection Em as <- <-. vm_compute in El. discriminate El.
Qed.

(** C1 at [int] keys and [string] values: key 2 after a store at key 1, and a
    store at key 2; and at a [float64] key, a store at NaN. *)
Lemma C1_witness :
  ((Load (K:=Z) (V:=string) (storeAll (K:=Z) zeroSyncMap [(1, "a"%string)]) 2).2
   = (EmptyString, false)
   /\ forall m : SyncMap,
        (Load (K:=Z) (Store (K:=Z) m 2 "b"%string) 2).2 = ("b"%string, true))
  /\ forall m : SyncMap,
       (Load (K:=float64) (Store (K:=float64) m FNaN "b"%string) FNaN).2
       = (EmptyString, false).
Proof.
  split.
  - destruct (C1_load_unstored_and_stored (K:=Z) (V:=string)
                zeroSyncMap [] [(1, "a"%string)] 2 "b"%string)
      as (E1 & E2 & _).
    + left. reflexivity.
    + constructor.
    + constructor; [simpl; lia | constructor].
    + reflexivity.
    + split; [exact E1|]. intros m. apply E2. reflexivity.
  - destruct (C1_load_unstored_and_stored (K:=float64) (V:=string)
                zeroSyncMap [] [] FNaN "b"%string)
      as (_ & _ & E3).
    + left. reflexivity.
    + constructor.
    + constructor.
    + reflexivity.
    + intros m. apply E3. reflexivity.
Defined.

(** [Load] after [Store] on a zero value, at a string value. *)
Lemma C9_witness :
  (Load (K:=Z) (Store (K:=Z) zeroSyncMap 7 "v"%string) 7).2 = ("v"%string, true).
Proof.
  refine (proj2 (proj2 (proj2 (proj2 (proj2 (proj2 (proj2
            (C9_zero_value_store_then_load (K:=Z) (V:=string) 7 "v"%string)))))))
            _ _); reflexivity.
Defined.

(** [Get] and [GetOrDefault] on the key that holds a nil interface. *)
Lemma C10_witness :
  (Get (K:=string) (V:=any) holdsNil "k").2 = None
  /\ (GetOrDefault (K:=string) (V:=any) holdsNil "k" []).2 = None.
Proof.
  refine (proj2 (proj2
            (C10_Get_is_GetOrDefault_without_default (K:=string) (V:=any)
               holdsNil "k")) _).
  vm_compute. reflexivity.
Defined.

(** [LoadAndDelete] on key 2 of [{1:"x", 2:"y"}]. *)
Lemma C6_witness :
  (LoadAndDelete (K:=Z) (V:=string) exampleA 2).2 = ("y"%string, true)
  /\ backing (LoadAndDelete (K:=Z) (V:=string) exampleA 2).1
     = delete (box (2:Z)) (backing exampleA)
  /\ (Load (K:=Z) (V:=string)
        (LoadAndDelete (K:=Z) (V:=string) exampleA 2).1 2).2
     = (EmptyString, false).
Proof.
  refine (C6_LoadAndDelete_present (K:=Z) (V:=string) exampleA 2 "y"%string _).
  vm_compute. reflexivity.
Defined.

(** [Swap] on key 2 of [{1:"x", 2:"y"}], which holds a value, and on key 9,
    which does not. *)
Lemma C7_witness :
  (Swap (K:=Z) (V:=string) exampleA 2 "n").2 = ("y"%string, true)
  /\ (Swap (K:=Z) (V:=string) exampleA 9 "n").2 = (EmptyString, false).
Proof.
  split.
  - refine (proj1 (proj1 (C7_Swap_present_and_absent (K:=Z) (V:=string)
                            exampleA 2 "n"%string) "y"%string _)).
    vm_compute. reflexivity.
  - refine (proj1 (proj2 (C7_Swap_present_and_absent (K:=Z) (V:=string)
                            exampleA 9 "n"%string)) _).
    vm_compute. reflexivity.
Defined.

(** [LoadOrStore] on key 9 of [{1:"x", 2:"y"}], which has no entry, and on
    key 2, which holds a value. *)
Lemma C3_witness :
  ((LoadOrStore (K:=Z) (V:=string) exampleA 9 "n").2 = ("n"%string, false)
   /\ (Load (K:=Z) (V:=string)
         (LoadOrStore (K:=Z) (V:=string) exampleA 9 "n").1 9).2
      = ("n"%string, true))
  /\ (LoadOrStore (K:=Z) (V:=string) exampleA 2 "n").2 = ("y"%string, true)
  /\ backing (LoadOrStore (K:=Z) (V:=string) exampleA 2 "n").1
     = backing exampleA.
Proof.
  split.
  - destruct (proj1 (C3_LoadOrStore_no_entry_or_present (K:=Z) (V:=string)
                       exampleA 9 "n"%string)) as (E1 & _ & E3).
    + vm_compute. reflexivity.
    + split; [exact E1|]. apply E3; reflexivity.
  - destruct (proj2 (C3_LoadOrStore_no_entry_or_present (K:=Z) (V:=string)
                       exampleA 2 "n"%string) "y"%string) as (E1 & E2 & _).
    + vm_compute. reflexivity.
    + split; [exact E1 | exact E2].
Defined.

(** A visitor that panics on every entry of [{1:"x", 2:"y"}] is still called
    on both, each panic is logged, and [Range] returns with the lock free. *)
Lemma Range_alwaysPanics_example :
  Range (K:=Z) (V:=string) exampleA alwaysPanics 0%nat []
  = Returns (exampleA,
             (2%nat, [RangePanic (DString "boom"); RangePanic (DString "boom")])).
Proof. vm_compute. reflexivity. Qed.

(** [Range] over [{1:"x", 2:"y"}] with the visitor that always panics, its
    calls recorded. *)
Lemma C4_witness :
  exists (s' : nat) (calls : list (Z * string * call)) (ext : list logline),
    Range (K:=Z) (V:=string) exampleA (recordCalls alwaysPanics) (0%nat, []) []
    = Returns (lazyInit exampleA, ((s', calls), [] ++ ext))
    /\ Range (K:=Z) (V:=string) exampleA alwaysPanics 0%nat []
       = Returns (lazyInit exampleA, (s', [] ++ ext))
    /\ calls.*1 = omap typedEntry (syncmap.entries (backing exampleA))
    /\ omap panicLine calls
       = List.filter (fun x => negb (isAssertLine x)) ext
    /\ (fun e : any * any => RangeAssertFailed e.1)
         <$> List.filter (fun e => negb (wellTyped Z string e))
               (syncmap.entries (backing exampleA))
       = List.filter isAssertLine ext.
Proof.
  refine (proj1 (proj2 (C4_Range_isolates_faults (K:=Z) (V:=string)
                          exampleA alwaysPanics 0%nat [] _)) _).
  - reflexivity.
  - intros k v s0. discriminate.
Defined.


(** [Merge] of [{1:"x", 2:"y"}] and [{2:"z", 3:"w"}]. *)
Lemma C8_witness :
  exists (out : SyncMap) (lg' : list logline),
    Merge (K:=Z) (V:=string) exampleA exampleB [] = Returns (out, lg')
    /\ forall k : Z,
         box k <> None ->
         (Load (V:=string) out k).2
         = if (Load (V:=string) exampleB k).2.2
           then (Load (V:=string) exampleB k).2
           else (Load (V:=string) exampleA k).2.
Proof.
  refine (proj1 (C8_Merge_overlays_b_on_a (K:=Z) (V:=string)
                   exampleA exampleB [] _ _)); reflexivity.
Defined.

(** ** Further properties of the single-key operations *)

Section AccessorLaws.
Context {K V : Type} `{GoType K} `{GoType V}.

(** X1. After [Delete k], [k] loads as (zero value, false) and every other
    key loads as before; deleting a key without entry changes nothing but
    the initialisation. *)
Theorem X1_Delete_then_Load (m : SyncMap) (k k' : K) :
  (Load (V:=V) (Delete m k) k').2
  = (if decide (box k' = box k) then (zero, false) else (Load (V:=V) m k').2)
  /\ (backing m !! box k = None -> Delete m k = lazyInit m).
Proof.
  split.
  - rewrite !Load_found, backing_Delete, lookup_Delete. cbn [snd].
    case_decide as E.
    + rewrite E, eqAny_refl.
      destruct (selfEq (box k)) eqn:Ek; [done|].
      by rewrite lookup_notSelfEq.
    + rewrite eqAny_ne; [done|]. by intros E'.
  - intros Hk. unfold Delete.
    rewrite backing_lazyInit, Delete_absent by done.
    apply setBacking_same.
Qed.

(** X2. [Store] is read back by [Load] at the keys that are [==] to the
    stored one and is invisible at the others, so it is never read back at a
    key that is not [==] to itself.  A second [Store] at a self-equal key
    replaces the first; at a key that is not, each [Store] adds an entry. *)
Theorem X2_Store_read_back_and_frame (m : SyncMap) (k k' : K) (v v' : V) :
  (Load (Store m k v) k').2
  = (if eqAny (box k) (box k') then (v, notNil (box v))
     else (Load (V:=V) m k').2)
  /\ (selfEq (box k) = true -> Store (Store m k v) k v' = Store m k v')
  /\ (selfEq (box k) = false ->
      syncmap.entries (backing (Store m k v))
      = syncmap.entries (backing m) ++ [(box k, box v)]).
Proof.
  split; [|split].
  - rewrite !Load_found, backing_Store, lookup_Store. cbn [snd].
    destruct (eqAny (box k) (box k')); [|done].
    by rewrite found_box_any.
  - intros Hk. unfold Store at 1 3. rewrite lazyInit_Store, backing_Store.
    rewrite Store_Store by done. by rewrite backing_lazyInit.
  - intros Hk. rewrite backing_Store.
    rewrite (selfEq_false _ Hk). unfold syncmap.Store, syncmap.entries.
    cbn [keyOf nan syncmap.live syncmap.stray].
    by rewrite fmap_app, app_assoc.
Qed.

(** X3. [GetOrDefault] with at least one default returns the value [Load]
    finds, and the first default when [Load] reports not found; further
    defaults are ignored. *)
Theorem X3_GetOrDefault_with_default (m : SyncMap) (k : K) (d : V)
    (more : list V) :
  GetOrDefault m k (d :: more)
  = (lazyInit m,
     if (Load (V:=V) m k).2.2 then (Load (V:=V) m k).2.1 else d).
Proof.
  rewrite Load_found. unfold GetOrDefault, syncmap.Load, found, typed, typedOk.
  rewrite backing_lazyInit.
  destruct (backing m !! box k) as [[x|]|]; cbn [negb notNil fst snd].
  - by destruct (assert (Some x)).
  - by rewrite assert_nil.
  - done.
Qed.

(** X4. [LoadAndDelete] is [Load] and [Delete] in one step: it returns what
    [Load] returns and leaves the container [Delete] leaves. *)
Theorem X4_LoadAndDelete_is_Load_and_Delete (m : SyncMap) (k : K) :
  LoadAndDelete (V:=V) m k = (Delete m k, (Load (V:=V) m k).2).
Proof.
  rewrite LoadAndDelete_found, Load_found.
  unfold Delete. by rewrite backing_lazyInit.
Qed.

(** X5. When the backing store has an entry at the key, whatever it holds,
    [LoadOrStore] stores nothing and returns what [Load] returns; for an entry
    that holds nil or a value of another type that is (zero value, false). *)
Theorem X5_LoadOrStore_on_entry (m : SyncMap) (k : K) (v : V) (x : any) :
  backing m !! box k = Some x ->
  LoadOrStore m k v = (lazyInit m, (Load (V:=V) m k).2)
  /\ (assert (T:=V) x = None ->
      (LoadOrStore m k v).2 = (zero, false)).
Proof.
  intros Hx. rewrite (LoadOrStore_entry _ _ _ _ Hx), Load_found, Hx.
  split; [done|]. intros Ex. cbn [snd]. unfold found. by rewrite Ex.
Qed.

(** X6. A value that [Load] reports as found is the one the backing store
    holds at the key, converted to [any], and that interface value is not
    nil; [Get] returns the same value. *)
Theorem X6_Load_found_is_stored (m : SyncMap) (k : K) (v : V) :
  (Load m k).2 = (v, true) ->
  backing m !! box k = Some (box v)
  /\ box v <> None
  /\ (Get m k).2 = v.
Proof.
  rewrite Load_found. cbn [snd]. intros Hf.
  destruct (found_true_inv _ _ Hf) as [Hs Hn].
  split; [done|]. split; [done|].
  unfold Get, syncmap.Load. rewrite backing_lazyInit, Hs.
  pose proof (typedOk_box v) as Ht. pose proof (typed_box v) as Hv.
  destruct (box v) as [d|]; [|done].
  cbn [negb notNil] in *. rewrite Ht. cbn [negb snd]. exact Hv.
Qed.

(** X7. The single-key operations never take or release the local lock and
    always leave the container initialised: the lock is the one [lazyInit]
    leaves, also when it is held, and the backing store is allocated. *)
Theorem X7_single_key_operations_leave_the_lock (m : SyncMap) (k : K) (v : V)
    (ds : list V) :
  Forall (fun m' : SyncMap =>
            localLock m' = localLock (lazyInit m) /\ lazyInitAllocs m' = 0%nat)
    [ (Load (V:=V) m k).1; (Get (V:=V) m k).1; (GetOrDefault m k ds).1;
      (LoadAndDelete (V:=V) m k).1; Store m k v; (LoadOrStore m k v).1;
      (Swap m k v).1; Delete m k ].
Proof.
  pose proof (lazyInitAllocs_lazyInit m) as Hz.
  repeat apply Forall_cons_2; try apply Forall_nil_2.
  - by rewrite Load_found.
  - unfold Get. destruct (syncmap.Load _ _) as [value ok].
    by repeat case_match.
  - unfold GetOrDefault. destruct (syncmap.Load _ _) as [value ok].
    by repeat case_match.
  - by rewrite LoadAndDelete_found.
  - done.
  - unfold LoadOrStore, syncmap.LoadOrStore.
    destruct (backing (lazyInit m) !! box k); cbn [fst]; [|done].
    by rewrite !backing_lazyInit, setBacking_same.
  - by rewrite Swap_found.
  - done.
Qed.

End AccessorLaws.

(** ** Ordinary maps: [NewSyncMap] and [ToMap] *)

Section OrdinaryMaps.
Context {K V : Type} `{GoType K} `{GoType V} `{Countable K}.

Lemma storeAll_app (m : SyncMap) (l1 l2 : list (K * V)) :
  storeAll m (l1 ++ l2) = storeAll (storeAll m l1) l2.
Proof. unfold storeAll. apply foldl_app. Qed.

Lemma NewSyncMap_storeAll (maps : list (list (K * V))) :
  NewSyncMap maps
  = storeAll {| syncMap := Some ∅; localLock := Some false |} (concat maps).
Proof.
  unfold NewSyncMap.
  generalize ({| syncMap := Some ∅; localLock := Some false |}).
  induction maps as [|mp maps IH]; intros m; [done|].
  cbn [foldl concat]. rewrite storeAll_app. apply IH.
Qed.

Lemma storeAll_lookup_last (ops : list (K * V)) (m : SyncMap) (k : K) :
  selfEq (box k) = true ->
  backing (storeAll m ops) !! box k
  = match (list_to_map (reverse ops) : gmap K V) !! k with
    | Some v => Some (box v)
    | None => backing m !! box k
    end.
Proof.
  intros Hk. revert m. induction ops as [|[k0 v0] ops IH]; intros m; [done|].
  change (storeAll m ((k0, v0) :: ops)) with (storeAll (Store m k0 v0) ops).
  rewrite IH, reverse_cons, list_to_map_app, lookup_union.
  destruct (list_to_map (reverse ops) !! k) as [v|];
    [by destruct (list_to_map [(k0, v0)] !! k)|].
  rewrite (left_id_L None _). cbn [list_to_map foldr fst snd].
  rewrite backing_Store, lookup_Store.
  destruct (decide (k0 = k)) as [->|Hne].
  - by rewrite eqAny_refl, Hk, lookup_insert_eq.
  - rewrite lookup_insert_ne, lookup_empty by done.
    rewrite eqAny_ne; [done|]. intros E. by apply box_inj in E.
Qed.

Lemma storeAll_stray (ops : list (K * V)) (m : SyncMap) :
  syncmap.stray (backing (storeAll m ops))
  = syncmap.stray (backing m)
    ++ ((fun kv : K * V => box kv.2)
          <$> List.filter (fun kv => negb (selfEq (box kv.1))) ops).
Proof.
  revert m. induction ops as [|[k0 v0] ops IH]; intros m.
  - cbn. by rewrite app_nil_r.
  - change (storeAll m ((k0, v0) :: ops)) with (storeAll (Store m k0 v0) ops).
    rewrite IH, backing_Store. cbn [List.filter fst].
    unfold syncmap.Store, selfEq.
    destruct (keyOf (box k0)); cbn [negb syncmap.stray]; [done|].
    by rewrite fmap_cons, <- app_assoc.
Qed.

Lemma NewSyncMap_initialised (l : list (list (K * V))) :
  lockFree (NewSyncMap l) /\ lazyInitAllocs (NewSyncMap l) = 0%nat.
Proof.
  rewrite NewSyncMap_storeAll.
  generalize (concat l). intros ops.
  assert (forall m : SyncMap,
             lockFree m /\ lazyInitAllocs m = 0%nat ->
             lockFree (storeAll m ops) /\ lazyInitAllocs (storeAll m ops) = 0%nat)
    as Hgen.
  { induction ops as [|kv ops IH]; intros m Hm; [done|].
    change (storeAll m (kv :: ops)) with (storeAll (Store m kv.1 kv.2) ops).
    apply IH. destruct Hm as [Hm _]. split; [|done].
    unfold lockFree. by rewrite lazyInit_Store, localLock_Store. }
  by apply Hgen.
Qed.

(** X8. [NewSyncMap] over ordinary maps, each given by its entries, returns
    an initialised container with the lock free.  A key that is [==] to
    itself loads with the value of the last entry that has it, and as not
    found when no entry has it; a key that is not loads as not found. *)
Theorem X8_NewSyncMap_later_maps_win (maps : list (list (K * V))) (k : K) :
  (Load (NewSyncMap maps) k).2
  = (if selfEq (box k)
     then match (list_to_map (reverse (concat maps)) : gmap K V) !! k with
          | Some v => (v, notNil (box v))
          | None => (zero, false)
          end
     else (zero, false))
  /\ lockFree (NewSyncMap maps)
  /\ lazyInitAllocs (NewSyncMap maps) = 0%nat.
Proof.
  split; [|apply NewSyncMap_initialised].
  rewrite Load_found. cbn [snd]. rewrite NewSyncMap_storeAll.
  destruct (selfEq (box k)) eqn:Hk.
  - rewrite storeAll_lookup_last by done.
    destruct (list_to_map (reverse (concat maps)) !! k) as [v|].
    + apply found_box_any.
    + cbn [backing syncMap]. by rewrite lookup_t_empty.
  - by rewrite lookup_notSelfEq.
Qed.

Lemma visit_assign (l : list (any * any)) (mp : gomap K V)
    (lg : list logline) :
  (syncmap.visit
     (wrappedFn (K:=K) (V:=V)
        (fun key value (mp : gomap K V) => (goAssign mp key value, Ret true)))
     l (mp, lg)).1
  = foldl (fun mp (kv : K * V) => goAssign mp kv.1 kv.2) mp
      (omap typedEntry l).
Proof.
  revert mp lg. induction l as [|[k0 v0] l IH]; intros mp lg; [done|].
  cbn [syncmap.visit omap list_omap].
  assert (typedEntry (K:=K) (V:=V) (k0, v0)
          = match assert (T:=K) k0, assert (T:=V) v0 with
            | Some k, Some v => Some (k, v)
            | _, _ => None
            end) as -> by done.
  unfold wrappedFn at 1.
  destruct (assert (T:=K) k0) as [tk|];
    [destruct (assert (T:=V) v0) as [tv|]|]; apply IH.
Qed.

Lemma goAssign_cells_last (l : list (K * V)) (mp : gomap K V) (k : K) :
  cells (foldl (fun mp (kv : K * V) => goAssign mp kv.1 kv.2) mp l) !! k
  = if selfEq (box k)
    then match (list_to_map (reverse l) : gmap K V) !! k with
         | Some v => Some v
         | None => cells mp !! k
         end
    else cells mp !! k.
Proof.
  revert mp. induction l as [|[k0 v0] l IH]; intros mp.
  - cbn. by destruct (selfEq (box k)).
  - cbn [foldl fst snd]. rewrite IH, reverse_cons, list_to_map_app, lookup_union.
    destruct (selfEq (box k)) eqn:Hk.
    + destruct (list_to_map (reverse l) !! k) as [v|];
        [by destruct (list_to_map [(k0, v0)] !! k)|].
      rewrite (left_id_L None _). cbn [list_to_map foldr fst snd].
      unfold goAssign.
      destruct (decide (k0 = k)) as [->|Hne].
      * rewrite Hk. cbn [cells]. by rewrite !lookup_insert_eq.
      * rewrite (lookup_insert_ne ∅), lookup_empty by done.
        destruct (selfEq (box k0)); cbn [cells]; [|done].
        by rewrite lookup_insert_ne.
    + unfold goAssign. destruct (selfEq (box k0)) eqn:Hk0; cbn [cells]; [|done].
      rewrite lookup_insert_ne; [done|]. intros ->. congruence.
Qed.

Lemma goAssign_nans (l : list (K * V)) (mp : gomap K V) :
  nans (foldl (fun mp (kv : K * V) => goAssign mp kv.1 kv.2) mp l)
  = nans mp ++ List.filter (fun kv => negb (selfEq (box kv.1))) l.
Proof.
  revert mp. induction l as [|[k0 v0] l IH]; intros mp.
  - cbn. by rewrite app_nil_r.
  - cbn [foldl fst snd List.filter]. rewrite IH. unfold goAssign.
    destruct (selfEq (box k0)); cbn [negb nans]; [done|].
    by rewrite <- app_assoc.
Qed.

Lemma filter_none {A : Type} (p : A -> bool) (l : list A) :
  Forall (fun a => p a = false) l -> List.filter p l = [].
Proof.
  induction l as [|a l IH]; intros Hl; [done|].
  inversion Hl as [|? ? Ha Hl']; subst. cbn [List.filter].
  rewrite Ha. by apply IH.
Qed.

Lemma filter_all {A : Type} (p : A -> bool) (l : list A) :
  Forall (fun a => p a = true) l -> List.filter p l = l.
Proof.
  induction l as [|a l IH]; intros Hl; [done|].
  inversion Hl as [|? ? Ha Hl']; subst. cbn [List.filter].
  rewrite Ha. f_equal. by apply IH.
Qed.

Lemma elem_of_live_entries (s : syncmap.t) (x v : any) :
  (x, v) ∈ prod_map anyOf id <$> map_to_list (syncmap.live s)
  <-> s !! x = Some v.
Proof.
  rewrite list_elem_of_fmap.
  assert (s !! x = match keyOf x with
                   | Some c => syncmap.live s !! c
                   | None => None
                   end) as -> by done.
  split.
  - intros ([c w] & [= -> ->] & Hin). apply elem_of_map_to_list in Hin.
    by rewrite keyOf_anyOf.
  - destruct (keyOf x) as [c|] eqn:Ex; [|done]. intros Hl.
    exists (c, v). split.
    + cbn. by rewrite (anyOf_keyOf _ _ Ex).
    + by apply elem_of_map_to_list.
Qed.

Lemma typedEntry_inv (e : any * any) (k : K) (v : V) :
  typedEntry e = Some (k, v) <-> assert e.1 = Some k /\ assert e.2 = Some v.
Proof.
  unfold typedEntry.
  destruct (assert (T:=K) e.1) as [k'|]; [|by split; [|intros []]].
  destruct (assert (T:=V) e.2) as [v'|]; [|by split; [|intros []]].
  split; [by intros [= -> ->] | by intros [[= ->] [= ->]]].
Qed.

Lemma typed_live_mem (s : syncmap.t) (k : K) (v : V) :
  (k, v) ∈ omap typedEntry (prod_map anyOf id <$> map_to_list (syncmap.live s))
  <-> box k <> None
      /\ exists x : any, s !! box k = Some x /\ assert x = Some v.
Proof.
  rewrite list_elem_of_omap. split.
  - intros ([key value] & Hin & [Hk Hv]%typedEntry_inv). cbn [fst snd] in *.
    apply elem_of_live_entries in Hin.
    rewrite (box_assert _ _ Hk). split.
    + intros ->. rewrite assert_nil in Hk. discriminate Hk.
    + eauto.
  - intros (Hk & x & Hx & Hv). exists (box k, x). split.
    + by apply elem_of_live_entries.
    + apply typedEntry_inv. cbn [fst snd]. by rewrite assert_box.
Qed.

Lemma typedEntry_NoDup (l : list (any * any)) :
  NoDup l.*1 -> NoDup (omap (typedEntry (K:=K) (V:=V)) l).*1.
Proof.
  induction l as [|[k0 v0] l IH]; intros Hnd; [constructor|].
  rewrite fmap_cons in Hnd. apply NoDup_cons in Hnd as [Hk0 Hnd].
  cbn [omap list_omap].
  destruct (typedEntry (k0, v0)) as [[k v]|] eqn:E; [|by apply IH].
  rewrite fmap_cons. apply NoDup_cons. split; [|by apply IH].
  cbn [fst]. intros Hin. apply Hk0.
  apply list_elem_of_fmap in Hin as ([k' v'] & -> & Hin). cbn [fst] in *.
  apply list_elem_of_omap in Hin as ([k1 v1] & Hin1 & E1).
  apply typedEntry_inv in E as [Ek _]. apply typedEntry_inv in E1 as [Ek1 _].
  cbn [fst snd] in *.
  assert (k1 = k0) as ->.
  { by rewrite <- (box_assert _ _ Ek), <- (box_assert _ _ Ek1). }
  apply list_elem_of_fmap. by exists (k0, v1).
Qed.

Lemma typed_live_selfEq (s : syncmap.t) :
  Forall (fun kv : K * V => selfEq (box kv.1) = true)
    (omap typedEntry (prod_map anyOf id <$> map_to_list (syncmap.live s))).
Proof.
  apply Forall_forall. intros [k v] Hin.
  apply typed_live_mem in Hin as (_ & x & Hx & _). cbn [fst].
  by eapply lookup_selfEq.
Qed.

Lemma typed_stray_notSelfEq (vs : list any) :
  Forall (fun kv : K * V => negb (selfEq (box kv.1)) = true)
    (omap typedEntry ((fun v : any => (nan, v)) <$> vs)).
Proof.
  apply Forall_forall. intros [k v] Hin.
  apply list_elem_of_omap in Hin as ([key value] & Hin & [Ek _]%typedEntry_inv).
  apply list_elem_of_fmap in Hin as (w & [= -> ->] & _).
  cbn [fst snd] in *. by rewrite (box_assert _ _ Ek).
Qed.

(** What [ToMap] returns: in [cells], exactly the keys [Load] finds, other
    than the nil interface, each with the value [Load] returns; in [nans], the
    entries stored under NaN that pass the assertions, in the order
    stored. *)
Lemma ToMap_spec (m : SyncMap) (lg : list logline) :
  lockFree m ->
  exists (mp : gomap K V) (lg' : list logline),
    ToMap m lg = Returns (lazyInit m, (mp, lg'))
    /\ (forall k : K,
          cells mp !! k
          = if notNil (box k) && (Load (V:=V) m k).2.2
            then Some (Load (V:=V) m k).2.1 else None)
    /\ nans mp
       = omap typedEntry
           ((fun v : any => (nan, v)) <$> syncmap.stray (backing m)).
Proof.
  intros Hl. unfold ToMap. rewrite Range_returns by done.
  pose proof (visit_assign (syncmap.entries (backing m)) goMake lg) as Hv.
  destruct (syncmap.visit _ (syncmap.entries (backing m)) (goMake, lg))
    as [mp lg'].
  exists mp, lg'. split; [done|]. cbn [fst] in Hv. subst mp.
  unfold syncmap.entries. rewrite omap_app, foldl_app.
  set (TL := omap typedEntry
               (prod_map anyOf id <$> map_to_list (syncmap.live (backing m)))).
  set (TS := omap typedEntry
               ((fun v : any => (nan, v)) <$> syncmap.stray (backing m))).
  assert (NoDup TL.*1) as Hnd.
  { apply typedEntry_NoDup, live_entries_NoDup. }
  split.
  - intros k. rewrite goAssign_cells_last, goAssign_cells_last.
    cbn [cells goMake]. rewrite lookup_empty.
    assert ((list_to_map (reverse TS) : gmap K V) !! k = None
            \/ selfEq (box k) = false) as Hts.
    { destruct (selfEq (box k)) eqn:Hk; [left|by right].
      apply not_elem_of_list_to_map_1. intros Hin.
      apply list_elem_of_fmap in Hin as ([k' v'] & -> & Hin).
      rewrite elem_of_reverse in Hin.
      pose proof (typed_stray_notSelfEq (syncmap.stray (backing m))) as Hs.
      rewrite Forall_forall in Hs. specialize (Hs _ Hin).
      cbn [fst] in *. by rewrite Hk in Hs. }
    rewrite Load_found. cbn [snd].
    destruct (selfEq (box k)) eqn:Hk.
    + destruct Hts as [->|?]; [|done].
      assert ((list_to_map (reverse TL) : gmap K V) = list_to_map TL) as ->.
      { symmetry. apply list_to_map_proper; [done|].
        symmetry. apply reverse_Permutation. }
      apply option_eq. intros v.
      transitivity ((k, v) ∈ TL).
      { rewrite (elem_of_list_to_map (M:=gmap K) TL k v Hnd).
        by destruct (list_to_map TL !! k). }
      unfold TL. rewrite typed_live_mem. unfold found. split.
      * intros (Hn & x & -> & ->). by destruct (box k).
      * destruct (backing m !! box k) as [x|] eqn:Ex; cbn [fst snd];
          [|by rewrite andb_false_r].
        destruct (assert (T:=V) x) as [w|] eqn:Ew; cbn [fst snd];
          [|by rewrite andb_false_r].
        destruct (box k) as [d|] eqn:Eb; cbn [notNil andb]; [|done].
        intros [= ->]. split; [done|]. by exists x.
    + rewrite lookup_notSelfEq by done. cbn [found snd].
      by rewrite andb_false_r.
  - rewrite goAssign_nans, goAssign_nans. cbn [nans goMake app].
    rewrite (filter_none _ TL), (filter_all _ TS); [done| |].
    + apply typed_stray_notSelfEq.
    + apply Forall_forall. intros kv Hin.
      pose proof (typed_live_selfEq (backing m)) as Hs.
      rewrite Forall_forall in Hs. by rewrite (Hs _ Hin).
Qed.

(** X9. With the local lock free, [ToMap] returns an ordinary map that has,
    under keys that are [==] to themselves, exactly the keys that [Load]
    finds, other than the nil interface, each with the value [Load] returns;
    and, under NaN, the entries stored under NaN that pass the assertions of
    [Range], in the order stored. *)
Theorem X9_ToMap_holds_what_Load_finds (m : SyncMap) (lg : list logline) :
  lockFree m ->
  exists (mp : gomap K V) (lg' : list logline),
    ToMap m lg = Returns (lazyInit m, (mp, lg'))
    /\ (forall k : K,
          cells mp !! k
          = if notNil (box k) && (Load (V:=V) m k).2.2
            then Some (Load (V:=V) m k).2.1 else None)
    /\ nans mp
       = omap typedEntry
           ((fun v : any => (nan, v)) <$> syncmap.stray (backing m)).
Proof. apply ToMap_spec. Qed.

Lemma gomap_eq (mp1 mp2 : gomap K V) :
  (forall k : K, cells mp1 !! k = cells mp2 !! k) ->
  nans mp1 = nans mp2 ->
  mp1 = mp2.
Proof.
  destruct mp1 as [c1 n1], mp2 as [c2 n2]. cbn [cells nans].
  intros Hc ->. f_equal. by apply map_eq.
Qed.

Lemma typed_stray_of_stores (l : list (K * V)) :
  Forall (fun kv : K * V => box kv.1 <> None /\ box kv.2 <> None) l ->
  omap (typedEntry (K:=K) (V:=V))
    ((fun v : any => (nan, v))
       <$> ((fun kv : K * V => box kv.2)
              <$> List.filter (fun kv => negb (selfEq (box kv.1))) l))
  = List.filter (fun kv => negb (selfEq (box kv.1))) l.
Proof.
  induction l as [|[k0 v0] l IH]; intros Hl; [done|].
  inversion Hl as [|? ? [Hk Hv] Hl']; subst. cbn [fst snd] in *.
  cbn [List.filter fst].
  destruct (selfEq (box k0)) eqn:Es; cbn [negb]; [by apply IH|].
  rewrite !fmap_cons. cbn [omap list_omap snd].
  assert (typedEntry (K:=K) (V:=V) (nan, box v0) = Some (k0, v0)) as ->.
  { apply typedEntry_inv. cbn [fst snd].
    rewrite <- (selfEq_false _ Es). by rewrite !assert_box. }
  f_equal. by apply IH.
Qed.

(** X10. Round trip: an ordinary map, given by its entries, whose keys and
    values convert to non-nil interface values comes back from [NewSyncMap]
    followed by [ToMap] as the ordinary map with these entries.  For the
    entries of a finite map without a key that is not [==] to itself, that
    is the finite map. *)
Theorem X10_ToMap_of_NewSyncMap (l : list (K * V)) (lg : list logline) :
  Forall (fun kv : K * V => box kv.1 <> None /\ box kv.2 <> None) l ->
  (exists (m' : SyncMap) (lg' : list logline),
      ToMap (NewSyncMap [l]) lg = Returns (m', (goMapOf l, lg')))
  /\ (forall g : gmap K V,
         l = map_to_list g ->
         (forall (k : K) (v : V), g !! k = Some v -> selfEq (box k) = true) ->
         goMapOf l = {| cells := g; nans := [] |}).
Proof.
  intros Hl. split.
  - destruct (NewSyncMap_initialised [l]) as [Hfree _].
    destruct (ToMap_spec (NewSyncMap [l]) lg Hfree) as (mp & lg' & E & Hc & Hn).
    exists (lazyInit (NewSyncMap [l])), lg'. rewrite E. do 3 f_equal.
    assert (concat [l] = l) as Hcat by apply app_nil_r.
    apply gomap_eq.
    + intros k. rewrite Hc. unfold goMapOf. rewrite goAssign_cells_last.
      cbn [cells goMake]. rewrite lookup_empty, Load_found. cbn [snd].
      rewrite NewSyncMap_storeAll, Hcat.
      destruct (selfEq (box k)) eqn:Hk.
      * rewrite storeAll_lookup_last by done.
        destruct (list_to_map (reverse l) !! k) as [v|] eqn:E1.
        -- apply elem_of_list_to_map_2 in E1. rewrite elem_of_reverse in E1.
           rewrite Forall_forall in Hl. destruct (Hl _ E1) as [Hk1 Hv1].
           cbn [fst snd] in *. rewrite found_box_any. cbn [fst snd].
           destruct (box k); [|done]. by destruct (box v).
        -- cbn [backing syncMap]. rewrite lookup_t_empty. cbn [found snd].
           by rewrite andb_false_r.
      * rewrite lookup_notSelfEq by done. cbn [found snd].
        by rewrite andb_false_r.
    + rewrite Hn. unfold goMapOf. rewrite goAssign_nans. cbn [nans goMake app].
      rewrite NewSyncMap_storeAll, Hcat, storeAll_stray.
      cbn [backing syncMap app].
      change (syncmap.stray ∅) with (@nil any). cbn [app].
      by apply typed_stray_of_stores.
  - intros g -> Hg. apply gomap_eq.
    + intros k. unfold goMapOf. rewrite goAssign_cells_last.
      cbn [cells goMake]. rewrite lookup_empty.
      assert ((list_to_map (reverse (map_to_list g)) : gmap K V) = g) as ->.
      { rewrite <- (list_to_map_to_list g) at 2.
        symmetry. apply list_to_map_proper; [apply NoDup_fst_map_to_list|].
        symmetry. apply reverse_Permutation. }
      destruct (selfEq (box k)) eqn:Hk; [by destruct (g !! k)|].
      destruct (g !! k) as [v|] eqn:Eg; [|done].
      rewrite (Hg k v Eg) in Hk. discriminate Hk.
    + unfold goMapOf. rewrite goAssign_nans. cbn [nans goMake app].
      apply filter_none, Forall_forall. intros [k v] Hin. cbn [fst].
      apply elem_of_map_to_list in Hin. by rewrite (Hg k v Hin).
Qed.

End OrdinaryMaps.

(** ** Further properties of [Range], [Clear] and [Copy] *)

Section TraversalLaws.
Context {K V : Type} `{GoType K} `{GoType V}.

Lemma visit_countCalls (l : list (any * any)) (n : nat) (lg : list logline) :
  syncmap.visit (wrappedFn (K:=K) (V:=V) countCalls) l (n, lg)
  = ((n + length (List.filter (wellTyped K V) l))%nat,
     lg ++ ((fun e : any * any => RangeAssertFailed e.1)
              <$> List.filter (fun e => negb (wellTyped K V e)) l)).
Proof.
  revert n lg. induction l as [|[k0 v0] l IH]; intros n lg.
  - cbn. by rewrite Nat.add_0_r, app_nil_r.
  - cbn [syncmap.visit List.filter].
    assert (wellTyped K V (k0, v0)
            = match assert (T:=K) k0, assert (T:=V) v0 with
              | Some _, Some _ => true
              | _, _ => false
              end) as ->.
    { unfold wellTyped, typedOk. cbn [fst snd].
      destruct (assert (T:=K) k0); [|done]. by destruct (assert (T:=V) v0). }
    unfold wrappedFn at 1.
    destruct (assert (T:=K) k0) as [tk|];
      [destruct (assert (T:=V) v0) as [tv|]|]; cbn [negb countCalls].
    + rewrite IH. cbn [length]. f_equal. lia.
    + rewrite IH, fmap_cons, <- app_assoc. done.
    + rewrite IH, fmap_cons, <- app_assoc. done.
Qed.

Lemma filter_split_length {A : Type} (p : A -> bool) (l : list A) :
  (length (List.filter p l) + length (List.filter (fun e => negb (p e)) l))%nat
  = length l.
Proof.
  induction l as [|a l IH]; [done|].
  cbn [List.filter]. destruct (p a); cbn [negb length]; lia.
Qed.

(** X11. With the local lock free, [Range] calls a visitor that neither
    stops nor panics once for each entry whose key and value pass their
    assertions, and logs one line for each other entry; calls and log lines
    together are as many as the backing store has entries. *)
Theorem X11_Range_visits_each_entry_once (m : SyncMap) (lg : list logline) :
  lockFree m ->
  exists (calls : nat) (ext : list logline),
    Range (K:=K) (V:=V) m countCalls 0%nat lg
    = Returns (lazyInit m, (calls, lg ++ ext))
    /\ calls = length (List.filter (wellTyped K V)
                         (syncmap.entries (backing m)))
    /\ ext = (fun e : any * any => RangeAssertFailed e.1)
               <$> List.filter (fun e => negb (wellTyped K V e))
                     (syncmap.entries (backing m))
    /\ (calls + length ext)%nat = length (syncmap.entries (backing m)).
Proof.
  intros Hl. rewrite Range_returns by done. rewrite visit_countCalls.
  eexists _, _. split; [done|]. split; [done|]. split; [done|].
  by rewrite length_fmap, Nat.add_0_l, filter_split_length.
Qed.

Lemma visit_stopping {S : Type} (fn : K -> V -> S -> S * call) :
  (forall (k : K) (v : V) (s : S), (fn k v s).2 = Ret false) ->
  forall (l : list (any * any)) (s : S) (lg : list logline),
  exists lg' : list logline,
    syncmap.visit (wrappedFn fn) l (s, lg)
    = (match omap (typedEntry (K:=K) (V:=V)) l with
       | [] => s
       | (k, v) :: _ => (fn k v s).1
       end, lg').
Proof.
  intros Hstop l. induction l as [|[k0 v0] l IH]; intros s lg.
  - by exists lg.
  - cbn [syncmap.visit omap list_omap].
    assert (typedEntry (K:=K) (V:=V) (k0, v0)
            = match assert (T:=K) k0, assert (T:=V) v0 with
              | Some k, Some v => Some (k, v)
              | _, _ => None
              end) as -> by done.
    unfold wrappedFn at 1.
    destruct (assert (T:=K) k0) as [tk|];
      [destruct (assert (T:=V) v0) as [tv|]|]; try apply IH.
    pose proof (Hstop tk tv s) as Hc.
    destruct (fn tk tv s) as [s1 c]. cbn [snd] in Hc. subst c.
    by exists lg.
Qed.

(** X12. With the local lock free, [Range] with a visitor that always
    returns [false] calls it at most once: on the first entry, in traversal
    order, that passes the assertions; with no such entry the caller's state
    is untouched. *)
Theorem X12_Range_stops_after_first_call {S : Type} (m : SyncMap)
    (fn : K -> V -> S -> S * call) (s : S) (lg : list logline) :
  (forall (k : K) (v : V) (s : S), (fn k v s).2 = Ret false) ->
  lockFree m ->
  exists lg' : list logline,
    Range m fn s lg
    = Returns (lazyInit m,
               (match omap (typedEntry (K:=K) (V:=V))
                        (syncmap.entries (backing m)) with
                | [] => s
                | (k, v) :: _ => (fn k v s).1
                end, lg')).
Proof.
  intros Hstop Hl. rewrite Range_returns by done.
  destruct (visit_stopping fn Hstop (syncmap.entries (backing m)) s lg)
    as (lg' & E).
  exists lg'. by rewrite E.
Qed.

(** X13. With the local lock free, [Clear] leaves a container in which every
    key loads as (zero value, false), and clearing it again changes
    nothing. *)
Theorem X13_Clear_then_Load (m : SyncMap) :
  lockFree m ->
  exists m' : SyncMap,
    Clear m = Returns m'
    /\ (forall k : K, Load (V:=V) m' k = (m', (zero, false)))
    /\ Clear m' = Returns m'.
Proof.
  intros Hl. rewrite (Clear_returns _ Hl). eexists. split; [done|].
  split.
  - intros k. rewrite Load_found. cbn [backing syncMap].
    assert (forall (vs : list any) (x : any),
               ({| syncmap.live := ∅; syncmap.stray := vs |} : syncmap.t) !! x
               = None) as ->; [|done].
    intros vs x. unfold lookup, syncmap.t_lookup. cbn [syncmap.live].
    destruct (keyOf x); [apply lookup_empty|done].
  - by rewrite Clear_returns.
Qed.

Lemma foldl_store_stray_of_live (l : list (key * any)) (s : syncmap.t) :
  syncmap.stray
    (foldl (fun s (e : any * any) =>
              if wellTyped K V e then syncmap.Store s e.1 e.2 else s) s
       (prod_map anyOf id <$> l))
  = syncmap.stray s.
Proof.
  revert s. induction l as [|[c v] l IH]; intros s; [done|].
  rewrite fmap_cons. cbn [foldl]. rewrite IH.
  destruct (wellTyped K V _); [|done].
  cbn [prod_map fst snd]. unfold syncmap.Store. by rewrite keyOf_anyOf.
Qed.

Lemma foldl_store_stray_of_stray (vs : list any) (s : syncmap.t) :
  syncmap.stray
    (foldl (fun s (e : any * any) =>
              if wellTyped K V e then syncmap.Store s e.1 e.2 else s) s
       ((fun v : any => (nan, v)) <$> vs))
  = syncmap.stray s
    ++ List.filter (fun v : any => wellTyped K V (nan, v)) vs.
Proof.
  revert s. induction vs as [|v vs IH]; intros s.
  - cbn. by rewrite app_nil_r.
  - rewrite fmap_cons. cbn [foldl List.filter]. rewrite IH.
    destruct (wellTyped K V (nan, v)); [|done].
    cbn [fst snd syncmap.Store keyOf nan syncmap.stray].
    by rewrite <- app_assoc.
Qed.

(** The NaN-keyed entries after a [Range] pass that stores what it visits. *)
Lemma Range_store_stray (src out : SyncMap) (lg : list logline) :
  syncmap.stray
    (backing (syncmap.visit
                (wrappedFn (K:=K) (V:=V)
                   (fun k v out => (Store out k v, Ret true)))
                (syncmap.entries (backing src)) (out, lg)).1)
  = syncmap.stray (backing out)
    ++ List.filter (fun v : any => wellTyped K V (nan, v))
         (syncmap.stray (backing src)).
Proof.
  rewrite visit_store_backing. unfold syncmap.entries.
  by rewrite foldl_app, foldl_store_stray_of_stray, foldl_store_stray_of_live.
Qed.

Lemma Copy_reads_as_source (m : SyncMap) (lg : list logline) :
  lockFree m ->
  exists (out : SyncMap) (lg' : list logline),
    Copy (K:=K) (V:=V) m lg = Returns (out, lg')
    /\ lockFree out
    /\ (forall k : K,
           box k <> None -> (Load (V:=V) out k).2 = (Load (V:=V) m k).2)
    /\ syncmap.stray (backing out)
       = List.filter (fun v : any => wellTyped K V (nan, v))
           (syncmap.stray (backing m)).
Proof.
  intros Hl. unfold Copy, SyncTransform.
  rewrite Range_returns by done.
  change (fun (key : K) (value : V) (m2 : SyncMap) =>
            match @inl (K * V) dyn (key, value) with
            | inl (k2, v2) => (Store m2 k2 v2, Ret true)
            | inr r => (m2, Panics r)
            end)
    with (fun (k : K) (v : V) (out : SyncMap) => (Store out k v, Ret true)).
  pose proof (Range_store_lookup (K:=K) (V:=V) m zeroSyncMap lg) as La.
  pose proof (Range_store_stray m zeroSyncMap lg) as Ls.
  pose proof (visit_store_lockFree (K:=K) (V:=V)
                (syncmap.entries (backing m)) zeroSyncMap lg eq_refl) as Lf.
  destruct (syncmap.visit _ (syncmap.entries (backing m)) (zeroSyncMap, lg))
    as [out lg'].
  exists out, lg'. split; [done|]. split; [done|]. split; [|done].
  intros k Hk. cbn [fst] in La.
  rewrite !Load_found. cbn [snd]. rewrite La. unfold typedOk, found.
  rewrite (assert_box k Hk). cbn [andb backing zeroSyncMap syncMap].
  rewrite lookup_t_empty.
  destruct (backing m !! box k) as [x|]; [|done].
  by destruct (assert (T:=V) x) eqn:Ex; rewrite ?Ex.
Qed.

(** X14. With the local lock free, [Copy] returns a container, its lock
    free, that loads every key other than the nil interface as the receiver
    does. *)
Theorem X14_Copy_loads_as_receiver (m : SyncMap) (lg : list logline) :
  lockFree m ->
  exists (out : SyncMap) (lg' : list logline),
    Copy (K:=K) (V:=V) m lg = Returns (out, lg')
    /\ lockFree out
    /\ forall k : K,
         box k <> None -> (Load (V:=V) out k).2 = (Load (V:=V) m k).2.
Proof.
  intros Hl.
  destruct (Copy_reads_as_source m lg Hl) as (out & lg' & E & Hf & Hk & _).
  by exists out, lg'.
Qed.

End TraversalLaws.

(** ** [SyncTransform] *)

Lemma foldl_Store_sound (outs : list (any * any)) (s : syncmap.t)
    (kk x : any) :
  foldl (fun s (e : any * any) => syncmap.Store s e.1 e.2) s outs !! kk
  = Some x ->
  (kk, x) ∈ outs \/ s !! kk = Some x.
Proof.
  revert s. induction outs as [|[k0 v0] outs IH]; intros s Hl.
  - by right.
  - cbn [foldl fst snd] in Hl. destruct (IH _ Hl) as [Hin|Hs].
    + left. by apply list_elem_of_further.
    + rewrite lookup_Store in Hs.
      destruct (eqAny k0 kk) eqn:E.
      * apply eqAny_true in E as [-> _]. injection Hs as ->.
        left. apply list_elem_of_here.
      * by right.
Qed.

Lemma foldl_Store_is_Some (outs : list (any * any)) (s : syncmap.t)
    (kk : any) :
  is_Some (s !! kk) ->
  is_Some (foldl (fun s (e : any * any) => syncmap.Store s e.1 e.2) s outs
             !! kk).
Proof.
  revert s. induction outs as [|[k1 v1] outs IH]; intros s Hs; [done|].
  cbn [foldl fst snd]. apply IH. rewrite lookup_Store.
  destruct (eqAny k1 kk); eauto.
Qed.

Lemma foldl_Store_complete (outs : list (any * any)) (s : syncmap.t)
    (kk x : any) :
  selfEq kk = true ->
  (kk, x) ∈ outs ->
  (forall x' : any, (kk, x') ∈ outs -> x' = x) ->
  foldl (fun s (e : any * any) => syncmap.Store s e.1 e.2) s outs !! kk
  = Some x.
Proof.
  intros Hk. revert s.
  induction outs as [|[k0 v0] outs IH]; intros s Hin Huniq.
  - by apply elem_of_nil in Hin.
  - cbn [foldl fst snd].
    destruct (decide ((kk, x) ∈ outs)) as [Hrest|Hrest].
    + apply IH; [done|]. intros x' Hx'. apply Huniq.
      by apply list_elem_of_further.
    + apply elem_of_cons in Hin as [[= <- <-]|Hin]; [|done].
      destruct (foldl_Store_is_Some outs (syncmap.Store s kk x) kk) as [y Ey].
      { rewrite lookup_Store, eqAny_refl, Hk. eauto. }
      rewrite Ey. f_equal.
      destruct (foldl_Store_sound _ _ _ _ Ey) as [Hy|Hy].
      * apply Huniq. by apply list_elem_of_further.
      * rewrite lookup_Store, eqAny_refl, Hk in Hy. by injection Hy.
Qed.

Section Transform.
Context {K1 V1 K2 V2 : Type}
  `{GoType K1} `{GoType V1} `{GoType K2} `{GoType V2}.

Lemma image_typedEntry (fn : K1 -> V1 -> (K2 * V2) + dyn) (e : any * any) :
  image fn e
  = match typedEntry (K:=K1) (V:=V1) e with
    | Some (k, v) =>
        match fn k v with
        | inl (k2, v2) => Some (box k2, box v2)
        | inr _ => None
        end
    | None => None
    end.
Proof.
  unfold image, typedEntry.
  destruct (assert (T:=K1) e.1); [|done]. by destruct (assert (T:=V1) e.2).
Qed.

Lemma visit_transform (fn : K1 -> V1 -> (K2 * V2) + dyn)
    (l : list (any * any)) (out : SyncMap) (lg : list logline) :
  backing (syncmap.visit
             (wrappedFn (K:=K1) (V:=V1)
                (fun key value m2 =>
                   match fn key value with
                   | inl (k2, v2) => (Store m2 k2 v2, Ret true)
                   | inr r => (m2, Panics r)
                   end))
             l (out, lg)).1
  = foldl (fun s (e : any * any) => syncmap.Store s e.1 e.2) (backing out)
      (omap (image fn) l).
Proof.
  revert out lg. induction l as [|[k0 v0] l IH]; intros out lg; [done|].
  cbn [syncmap.visit omap list_omap]. unfold wrappedFn at 1.
  destruct (assert (T:=K1) k0) as [tk|] eqn:Ek;
    [destruct (assert (T:=V1) v0) as [tv|] eqn:Ev;
     [destruct (fn tk tv) as [[k2 v2]|r] eqn:Efn|]|].
  - replace (image fn (k0, v0)) with (Some (box k2, box v2)).
    + by rewrite IH, backing_Store.
    + unfold image. cbn [fst snd]. by rewrite Ek, Ev, Efn.
  - replace (image fn (k0, v0)) with (@None (any * any)); [apply IH|].
    unfold image. cbn [fst snd]. by rewrite Ek, Ev, Efn.
  - replace (image fn (k0, v0)) with (@None (any * any)); [apply IH|].
    unfold image. cbn [fst snd]. by rewrite Ek, Ev.
  - replace (image fn (k0, v0)) with (@None (any * any)); [apply IH|].
    unfold image. cbn [fst snd]. by rewrite Ek.
Qed.

Lemma elem_of_images (fn : K1 -> V1 -> (K2 * V2) + dyn)
    (l : list (any * any)) (o : any * any) :
  o ∈ omap (image fn) l
  <-> exists (k : K1) (v : V1) (k2 : K2) (v2 : V2),
        (k, v) ∈ omap (typedEntry (K:=K1) (V:=V1)) l
        /\ fn k v = inl (k2, v2) /\ o = (box k2, box v2).
Proof.
  rewrite list_elem_of_omap. split.
  - intros (e & He & Hi). rewrite image_typedEntry in Hi.
    destruct (typedEntry e) as [[k v]|] eqn:Et; [|done].
    destruct (fn k v) as [[k2 v2]|r] eqn:Efn; [|done].
    injection Hi as <-. exists k, v, k2, v2.
    split; [|done]. apply list_elem_of_omap. by exists e.
  - intros (k & v & k2 & v2 & Hin & Hfn & ->).
    apply list_elem_of_omap in Hin as (e & He & Et).
    exists e. split; [done|]. by rewrite image_typedEntry, Et, Hfn.
Qed.

(** X15. With the local lock free, every value that [Load] finds in the
    result of [SyncTransform] is the image under [fn] of an entry of the
    source that passes the assertions of [Range]. *)
Theorem X15_SyncTransform_entries_are_images (m1 : SyncMap)
    (fn : K1 -> V1 -> (K2 * V2) + dyn) (lg : list logline) :
  lockFree m1 ->
  exists (out : SyncMap) (lg' : list logline),
    SyncTransform m1 fn lg = Returns (out, lg')
    /\ forall (k2 : K2) (v2 : V2),
         (Load out k2).2 = (v2, true) ->
         exists (k : K1) (v : V1),
           (k, v) ∈ omap (typedEntry (K:=K1) (V:=V1))
                      (syncmap.entries (backing m1))
           /\ fn k v = inl (k2, v2).
Proof.
  intros Hl. unfold SyncTransform. rewrite Range_returns by done.
  pose proof (visit_transform fn (syncmap.entries (backing m1)) zeroSyncMap lg)
    as Hb.
  destruct (syncmap.visit _ (syncmap.entries (backing m1)) (zeroSyncMap, lg))
    as [out lg'].
  exists out, lg'. split; [done|].
  intros k2 v2. rewrite Load_found. cbn [snd fst] in *. intros Hf.
  destruct (found_true_inv _ _ Hf) as [Hs Hn].
  rewrite Hb in Hs.
  destruct (foldl_Store_sound _ _ _ _ Hs) as [Hin|Hin].
  - apply elem_of_images in Hin
      as (k & v & k2' & v2' & Hin & Hfn & [= E1 E2]).
    apply box_inj in E1. apply box_inj in E2. subst k2' v2'.
    by exists k, v.
  - cbn [backing zeroSyncMap syncMap] in Hin.
    by rewrite lookup_t_empty in Hin.
Qed.

(** X16. With the local lock free, if an entry of the source passes the
    assertions of [Range] and [fn] sends it to a key that is [==] to itself,
    to which all such entries send a single value, then [Load] finds that
    value at that key in the result of [SyncTransform]. *)
Theorem X16_SyncTransform_stores_images (m1 : SyncMap)
    (fn : K1 -> V1 -> (K2 * V2) + dyn) (lg : list logline)
    (k : K1) (v : V1) (k2 : K2) (v2 : V2) :
  lockFree m1 ->
  (k, v) ∈ omap (typedEntry (K:=K1) (V:=V1)) (syncmap.entries (backing m1)) ->
  fn k v = inl (k2, v2) ->
  selfEq (box k2) = true ->
  (forall (k' : K1) (v' : V1) (v2' : V2),
      (k', v') ∈ omap (typedEntry (K:=K1) (V:=V1))
                   (syncmap.entries (backing m1)) ->
      fn k' v' = inl (k2, v2') -> v2' = v2) ->
  exists (out : SyncMap) (lg' : list logline),
    SyncTransform m1 fn lg = Returns (out, lg')
    /\ (Load out k2).2 = (v2, notNil (box v2)).
Proof.
  intros Hl Hin Hfn Hk2 Huniq. unfold SyncTransform.
  rewrite Range_returns by done.
  pose proof (visit_transform fn (syncmap.entries (backing m1)) zeroSyncMap lg)
    as Hb.
  destruct (syncmap.visit _ (syncmap.entries (backing m1)) (zeroSyncMap, lg))
    as [out lg'].
  exists out, lg'. split; [done|].
  rewrite Load_found. cbn [snd fst] in *. rewrite Hb.
  rewrite (foldl_Store_complete _ _ (box k2) (box v2)).
  - apply found_box_any.
  - done.
  - apply elem_of_images. by exists k, v, k2, v2.
  - intros x' Hx'.
    apply elem_of_images in Hx'
      as (k' & v' & k2' & v2' & Hin' & Hfn' & [= E1 E2]).
    apply box_inj in E1. subst k2' x'. f_equal.
    by apply (Huniq k' v' v2').
Qed.

End Transform.

(** ** [Copy] and [Merge] seen through [ToMap] *)

Section CopyToMap.
Context {K V : Type} `{GoType K} `{GoType V} `{Countable K}.

Lemma typed_stray_filter (vs : list any) :
  omap (typedEntry (K:=K) (V:=V))
    ((fun v : any => (nan, v))
       <$> List.filter (fun v : any => wellTyped K V (nan, v)) vs)
  = omap (typedEntry (K:=K) (V:=V)) ((fun v : any => (nan, v)) <$> vs).
Proof.
  induction vs as [|v vs IH]; [done|].
  cbn [List.filter]. rewrite wellTyped_typedEntry, (fmap_cons _ v vs).
  cbn [omap list_omap].
  destruct (typedEntry (nan, v)) as [kv|] eqn:E; [|done].
  rewrite fmap_cons. cbn [omap list_omap]. by rewrite E, IH.
Qed.

(** X17. With the local lock free, a container and its [Copy] give the same
    ordinary map through [ToMap]. *)
Theorem X17_Copy_preserves_ToMap (m : SyncMap) (lg : list logline) :
  lockFree m ->
  exists (out : SyncMap) (mp : gomap K V) (lg1 lg2 lg3 : list logline),
    Copy (K:=K) (V:=V) m lg = Returns (out, lg1)
    /\ ToMap out lg1 = Returns (lazyInit out, (mp, lg2))
    /\ ToMap m lg = Returns (lazyInit m, (mp, lg3)).
Proof.
  intros Hl.
  destruct (Copy_reads_as_source (K:=K) (V:=V) m lg Hl)
    as (out & lg1 & Ec & Hout & Hsame & Hstray).
  destruct (ToMap_spec (K:=K) (V:=V) out lg1 Hout) as (mp1 & lg2 & E1 & L1 & N1).
  destruct (ToMap_spec (K:=K) (V:=V) m lg Hl) as (mp2 & lg3 & E2 & L2 & N2).
  assert (mp1 = mp2) as ->.
  { apply gomap_eq.
    - intros k. rewrite L1, L2.
      destruct (box k) as [d|] eqn:Ek; [|done].
      rewrite Hsame; [done|]. by rewrite Ek.
    - by rewrite N1, N2, Hstray, typed_stray_filter. }
  by exists out, mp2, lg1, lg2, lg3.
Qed.

Lemma Merge_lockFree_stray (a b out : SyncMap) (lg lg' : list logline) :
  lockFree a -> lockFree b ->
  Merge (K:=K) (V:=V) a b lg = Returns (out, lg') ->
  lockFree out
  /\ syncmap.stray (backing out)
     = List.filter (fun v : any => wellTyped K V (nan, v))
         (syncmap.stray (backing a))
       ++ List.filter (fun v : any => wellTyped K V (nan, v))
            (syncmap.stray (backing b)).
Proof.
  intros Ha Hb. unfold Merge.
  rewrite (Range_returns a) by done.
  pose proof (visit_store_lockFree (K:=K) (V:=V)
                (syncmap.entries (backing a)) zeroSyncMap lg eq_refl) as L1.
  pose proof (Range_store_stray (K:=K) (V:=V) a zeroSyncMap lg) as S1.
  destruct (syncmap.visit _ (syncmap.entries (backing a)) (zeroSyncMap, lg))
    as [out1 lg1].
  rewrite (Range_returns b) by done.
  pose proof (visit_store_lockFree (K:=K) (V:=V)
                (syncmap.entries (backing b)) out1 lg1 L1) as L2.
  pose proof (Range_store_stray (K:=K) (V:=V) b out1 lg1) as S2.
  destruct (syncmap.visit _ (syncmap.entries (backing b)) (out1, lg1))
    as [out2 lg2].
  intros [= <- <-]. split; [done|].
  cbn [fst] in *. by rewrite S2, S1.
Qed.

(** X18. With both local locks free, the ordinary map of [Merge a b] is the
    ordinary map of [b] completed by that of [a]: on a key that both have,
    the value of [b]; the entries under NaN are those of [a] followed by
    those of [b]. *)
Theorem X18_ToMap_of_Merge (a b : SyncMap) (lg : list logline) :
  lockFree a -> lockFree b ->
  exists (out : SyncMap) (mpa mpb : gomap K V) (lg1 lg2 lg3 lg4 : list logline),
    Merge (K:=K) (V:=V) a b lg = Returns (out, lg1)
    /\ ToMap a lg = Returns (lazyInit a, (mpa, lg2))
    /\ ToMap b lg = Returns (lazyInit b, (mpb, lg3))
    /\ ToMap out lg1
       = Returns (lazyInit out,
                  ({| cells := cells mpb ∪ cells mpa;
                      nans := nans mpa ++ nans mpb |}, lg4)).
Proof.
  intros Ha Hb.
  destruct (Merge_overlay (K:=K) (V:=V) a b lg Ha Hb)
    as (out & lg1 & Em & Hm).
  destruct (Merge_lockFree_stray _ _ _ _ _ Ha Hb Em) as [Ho Hs].
  destruct (ToMap_spec (K:=K) (V:=V) a lg Ha) as (mpa & lg2 & Ea & La & Na).
  destruct (ToMap_spec (K:=K) (V:=V) b lg Hb) as (mpb & lg3 & Eb & Lb & Nb).
  destruct (ToMap_spec (K:=K) (V:=V) out lg1 Ho) as (mpo & lg4 & Eo & Lo & No).
  assert (mpo = {| cells := cells mpb ∪ cells mpa;
                   nans := nans mpa ++ nans mpb |}) as ->.
  { apply gomap_eq; cbn [cells nans].
    - intros k. rewrite lookup_union, Lo, La, Lb.
      destruct (box k) as [d|] eqn:Ek; [|done].
      rewrite Hm by (by rewrite Ek). cbn [notNil andb].
      destruct (Load (V:=V) b k).2 as [vb [|]];
        destruct (Load (V:=V) a k).2 as [va [|]]; done.
    - rewrite No, Na, Nb, Hs, fmap_app, omap_app.
      by rewrite !typed_stray_filter. }
  by exists out, mpa, mpb, lg1, lg2, lg3, lg4.
Qed.

End CopyToMap.

(** ** Concrete runs of the further properties *)

(** [Delete] of key 9, which [{1:"x", 2:"y"}] does not have. *)
Lemma X1_witness :
  Delete (K:=Z) exampleA 9 = lazyInit exampleA.
Proof.
  refine (proj2 (X1_Delete_then_Load (K:=Z) (V:=string) exampleA 9 9) _).
  vm_compute. reflexivity.
Defined.

(** Two stores at key 2 of [{1:"x", 2:"y"}], and a store at NaN on
    [Store(NaN, "v")]. *)
Lemma X2_witness :
  Store (K:=Z) (V:=string) (Store (K:=Z) (V:=string) exampleA 2 "p") 2 "q"
  = Store (K:=Z) (V:=string) exampleA 2 "q"
  /\ syncmap.entries
       (backing (Store (K:=float64) (V:=string) nanKeyed FNaN "w"))
     = syncmap.entries (backing nanKeyed)
       ++ [(box FNaN, box "w"%string)].
Proof.
  split.
  - refine (proj1 (proj2 (X2_Store_read_back_and_frame (K:=Z) (V:=string)
                            exampleA 2 2 "p"%string "q"%string)) _).
    reflexivity.
  - refine (proj2 (proj2 (X2_Store_read_back_and_frame (K:=float64) (V:=string)
                            nanKeyed FNaN FNaN "w"%string "w"%string)) _).
    reflexivity.
Defined.

(** [LoadOrStore] on the key that holds the nil interface. *)
Lemma X5_witness :
  LoadOrStore (K:=string) (V:=any) holdsNil "k" (Some (DInt 1))
  = (lazyInit holdsNil, (Load (K:=string) (V:=any) holdsNil "k").2)
  /\ (LoadOrStore (K:=string) (V:=any) holdsNil "k" (Some (DInt 1))).2
     = (None, false).
Proof.
  destruct (X5_LoadOrStore_on_entry (K:=string) (V:=any)
              holdsNil "k"%string (Some (DInt 1)) None) as [E1 E2].
  - vm_compute. reflexivity.
  - split; [exact E1|]. apply E2. reflexivity.
Defined.

(** [Load] finds "y" at key 2 of [{1:"x", 2:"y"}]. *)
Lemma X6_witness :
  backing exampleA !! box (2:Z) = Some (box "y"%string)
  /\ box "y"%string <> None
  /\ (Get (K:=Z) (V:=string) exampleA 2).2 = "y"%string.
Proof.
  refine (X6_Load_found_is_stored (K:=Z) (V:=string) exampleA 2 "y"%string _).
  vm_compute. reflexivity.
Defined.

(** [ToMap] of [{1:"x", 2:"y"}]. *)
Lemma X9_witness :
  exists (mp : gomap Z string) (lg' : list logline),
    ToMap exampleA [] = Returns (lazyInit exampleA, (mp, lg'))
    /\ (forall k : Z,
          cells mp !! k
          = if notNil (box k) && (Load (V:=string) exampleA k).2.2
            then Some (Load (V:=string) exampleA k).2.1 else None)
    /\ nans mp
       = omap typedEntry
           ((fun v : any => (nan, v)) <$> syncmap.stray (backing exampleA)).
Proof.
  refine (X9_ToMap_holds_what_Load_finds (K:=Z) (V:=string) exampleA [] _).
  reflexivity.
Defined.

(** [{1.0: "x", NaN: "y", NaN: "z"}], with [float64] keys, through
    [NewSyncMap] and [ToMap]. *)
Lemma X10_witness :
  exists (m' : SyncMap) (lg' : list logline),
    ToMap (NewSyncMap (K:=float64) (V:=string)
             [[(FVal 1, "x"%string); (FNaN, "y"%string); (FNaN, "z"%string)]])
      []
    = Returns (m', (goMapOf [(FVal 1, "x"%string); (FNaN, "y"%string);
                             (FNaN, "z"%string)], lg')).
Proof.
  refine (proj1 (X10_ToMap_of_NewSyncMap (K:=float64) (V:=string)
                   [(FVal 1, "x"%string); (FNaN, "y"%string);
                    (FNaN, "z"%string)] [] _)).
  repeat constructor; discriminate.
Defined.

(** [Range] over [{1:"x", 2:"y"}] with the counting visitor. *)
Lemma X11_witness :
  exists (calls : nat) (ext : list logline),
    Range (K:=Z) (V:=string) exampleA countCalls 0%nat []
    = Returns (lazyInit exampleA, (calls, [] ++ ext))
    /\ calls = length (List.filter (wellTyped Z string)
                         (syncmap.entries (backing exampleA)))
    /\ ext = (fun e : any * any => RangeAssertFailed e.1)
               <$> List.filter (fun e => negb (wellTyped Z string e))
                     (syncmap.entries (backing exampleA))
    /\ (calls + length ext)%nat = length (syncmap.entries (backing exampleA)).
Proof.
  refine (X11_Range_visits_each_entry_once (K:=Z) (V:=string) exampleA [] _).
  reflexivity.
Defined.

(** [Range] over [{1:"x", 2:"y"}] with the visitor that stops at once. *)
Lemma X12_witness :
  exists lg' : list logline,
    Range (K:=Z) (V:=string) exampleA stopAtOnce 0%nat []
    = Returns (lazyInit exampleA,
               (match omap (typedEntry (K:=Z) (V:=string))
                        (syncmap.entries (backing exampleA)) with
                | [] => 0%nat
                | (k, v) :: _ => (stopAtOnce k v 0%nat).1
                end, lg')).
Proof.
  refine (X12_Range_stops_after_first_call (K:=Z) (V:=string)
            exampleA stopAtOnce 0%nat [] _ _).
  - intros k v s. reflexivity.
  - reflexivity.
Defined.

(** [Clear] of [{1:"x", 2:"y"}], then [Load]. *)
Lemma X13_witness :
  exists m' : SyncMap,
    Clear exampleA = Returns m'
    /\ (forall k : Z, Load (V:=string) m' k = (m', (EmptyString, false)))
    /\ Clear m' = Returns m'.
Proof.
  refine (X13_Clear_then_Load (K:=Z) (V:=string) exampleA _).
  reflexivity.
Defined.

(** [Copy] of [{1:"x", 2:"y"}]. *)
Lemma X14_witness :
  exists (out : SyncMap) (lg' : list logline),
    Copy (K:=Z) (V:=string) exampleA [] = Returns (out, lg')
    /\ lockFree out
    /\ forall k : Z,
         box k <> None
         -> (Load (V:=string) out k).2 = (Load (V:=string) exampleA k).2.
Proof.
  refine (X14_Copy_loads_as_receiver (K:=Z) (V:=string) exampleA [] _).
  reflexivity.
Defined.

(** [SyncTransform] of [{1:"x", 2:"y"}] with the keys moved up by ten. *)
Lemma X15_witness :
  exists (out : SyncMap) (lg' : list logline),
    SyncTransform (K1:=Z) (V1:=string) (K2:=Z) (V2:=string)
      exampleA (fun k v => inl (k + 10, v)) [] = Returns (out, lg')
    /\ forall (k2 : Z) (v2 : string),
         (Load out k2).2 = (v2, true) ->
         exists (k : Z) (v : string),
           (k, v) ∈ omap (typedEntry (K:=Z) (V:=string))
                      (syncmap.entries (backing exampleA))
           /\ @inl (Z * string) dyn (k + 10, v) = inl (k2, v2).
Proof.
  refine (X15_SyncTransform_entries_are_images (K1:=Z) (V1:=string)
            (K2:=Z) (V2:=string) exampleA (fun k v => inl (k + 10, v)) [] _).
  reflexivity.
Defined.

(** The entry at key 1 of [{1:"x", 2:"y"}] is found at key 11 of the
    transformed container. *)
Lemma X16_witness :
  exists (out : SyncMap) (lg' : list logline),
    SyncTransform (K1:=Z) (V1:=string) (K2:=Z) (V2:=string)
      exampleA (fun k v => inl (k + 10, v)) [] = Returns (out, lg')
    /\ (Load (K:=Z) (V:=string) out 11).2 = ("x"%string, true).
Proof.
  refine (X16_SyncTransform_stores_images (K1:=Z) (V1:=string)
            (K2:=Z) (V2:=string) exampleA (fun k v => inl (k + 10, v)) []
            1 "x"%string 11 "x"%string _ _ _ _ _).
  - reflexivity.
  - vm_compute. apply list_elem_of_In. vm_compute. tauto.
  - reflexivity.
  - reflexivity.
  - intros k' v' v2' Hin E. injection E as Hk Hv. subst v2'.
    assert (k' = 1) as -> by lia.
    apply list_elem_of_In in Hin. vm_compute in Hin.
    destruct Hin as [E|[E|[]]]; first [discriminate E | by injection E].
Defined.

(** [Copy] of [{1:"x", 2:"y"}], then [ToMap]. *)
Lemma X17_witness :
  exists (out : SyncMap) (mp : gomap Z string) (lg1 lg2 lg3 : list logline),
    Copy (K:=Z) (V:=string) exampleA [] = Returns (out, lg1)
    /\ ToMap out lg1 = Returns (lazyInit out, (mp, lg2))
    /\ ToMap exampleA [] = Returns (lazyInit exampleA, (mp, lg3)).
Proof.
  refine (X17_Copy_preserves_ToMap (K:=Z) (V:=string) exampleA [] _).
  reflexivity.
Defined.

(** [Merge] of [{1:"x", 2:"y"}] and [{2:"z", 3:"w"}], then [ToMap]. *)
Lemma X18_witness :
  exists (out : SyncMap) (mpa mpb : gomap Z string)
         (lg1 lg2 lg3 lg4 : list logline),
    Merge (K:=Z) (V:=string) exampleA exampleB [] = Returns (out, lg1)
    /\ ToMap exampleA [] = Returns (lazyInit exampleA, (mpa, lg2))
    /\ ToMap exampleB [] = Returns (lazyInit exampleB, (mpb, lg3))
    /\ ToMap out lg1
       = Returns (lazyInit out,
                  ({| cells := cells mpb ∪ cells mpa;
                      nans := nans mpa ++ nans mpb |}, lg4)).
Proof.
  refine (X18_ToMap_of_Merge (K:=Z) (V:=string) exampleA exampleB [] _ _);
    reflexivity.
Defined.
